(** * task_manager.py: the task store, its queries and its command handler

    A shallow embedding of [src/task_manager.py] and the properties of its
    task store: filtering and ordering of [Tasks.list], [Tasks.query] and
    [Tasks.report], id assignment in [handle_command], hard and soft
    deletion, completion, and persistence through [pickle].

    Conventions of the embedding.
    - A Python [int] is a [Z].
    - A Python [str] is a [string]; a character is read as the code point
      0..255 (Latin-1).  [str.lower], [str.isdigit] and the regular
      expression class [\d] are modelled on that range, which is closed
      under [str.lower]; code points above 255 are outside the model.
    - A naive [datetime] is the number of microseconds elapsed since
      [datetime.min] (0001-01-01 00:00:00), so that Python's comparison of
      datetimes is the comparison of these numbers.
    - [datetime.now()] is a parameter [now] of the operation that reads the
      clock.
    - The file system is a finite map from paths to file contents; only
      unpickling can raise (I/O failures are outside the model). *)

From Stdlib Require Import ZArith Lia Ascii String List Sorting.Permutation.
From stdpp Require Import base option list gmap strings pretty sorting.

Local Open Scope Z_scope.
Set Warnings "-register-all".

(** ** Python strings *)

Definition ord (c : ascii) : Z := Z.of_nat (nat_of_ascii c).
Definition chr (z : Z) : ascii := ascii_of_nat (Z.to_nat z).

Definition str := string.

Definition chars (s : str) : list ascii := list_ascii_of_string s.

(** [c.isdigit()] on Latin-1: the decimal digits and the superscripts
    U+00B2, U+00B3 and U+00B9. *)
Definition char_isdigit (c : ascii) : bool :=
  let n := ord c in
  ((48 <=? n) && (n <=? 57)) || (n =? 178) || (n =? 179) || (n =? 185).

(** [s.isdigit()]: every character is a digit and there is at least one. *)
Definition isdigit (s : str) : bool :=
  match chars s with
  | [] => false
  | cs => forallb char_isdigit cs
  end.

(** [c.lower()] on Latin-1: A-Z, and U+00C0..U+00DE except U+00D7. *)
Definition char_lower (c : ascii) : ascii :=
  let n := ord c in
  if ((65 <=? n) && (n <=? 90))
     || ((192 <=? n) && (n <=? 222) && negb (n =? 215))
  then chr (n + 32) else c.

Definition lower (s : str) : str :=
  string_of_list_ascii (map char_lower (chars s)).

Fixpoint starts_with (p s : list ascii) : bool :=
  match p, s with
  | [], _ => true
  | _ :: _, [] => false
  | a :: p', b :: s' => if Ascii.eqb a b then starts_with p' s' else false
  end.

Fixpoint find_in (sub s : list ascii) : bool :=
  starts_with sub s ||
  match s with
  | [] => false
  | _ :: s' => find_in sub s'
  end.

(** [sub in s] for two strings. *)
Definition str_in (sub s : str) : bool := find_in (chars sub) (chars s).

(** [bool(s)] for a string. *)
Definition str_truthy (s : str) : bool :=
  match s with EmptyString => false | _ => true end.

(** ** datetime *)

Definition datetime := Z.

Definition us_per_day : Z := 86400000000.

Definition is_leap (y : Z) : bool :=
  (y mod 4 =? 0) && (negb (y mod 100 =? 0) || (y mod 400 =? 0)).

Definition days_before_year (y : Z) : Z :=
  let y1 := y - 1 in y1 * 365 + y1 / 4 - y1 / 100 + y1 / 400.

Definition days_in_month (y m : Z) : Z :=
  if m =? 2 then (if is_leap y then 29 else 28)
  else if (m =? 4) || (m =? 6) || (m =? 9) || (m =? 11) then 30
  else 31.

Definition days_before_month (y m : Z) : Z :=
  nth (Z.to_nat m) [0; 0; 31; 59; 90; 120; 151; 181; 212; 243; 273; 304; 334] 0
  + (if (2 <? m) && is_leap y then 1 else 0).

(** The proleptic Gregorian ordinal of a date; 0001-01-01 is day 1. *)
Definition ymd2ord (y m d : Z) : Z :=
  days_before_year y + days_before_month y m + d.

Definition MINYEAR : Z := 1.
Definition MAXYEAR : Z := 9999.

(** [datetime(y, m, d)], which raises [ValueError] outside the calendar. *)
Definition datetime_of_date (y m d : Z) : option datetime :=
  if (MINYEAR <=? y) && (y <=? MAXYEAR) && (1 <=? m) && (m <=? 12)
     && (1 <=? d) && (d <=? days_in_month y m)
  then Some ((ymd2ord y m d - 1) * us_per_day)
  else None.

Definition datetime_min : datetime := 0.

(** 9999-12-31 23:59:59.999999 *)
Definition datetime_max : datetime := ymd2ord 9999 12 31 * us_per_day - 1.

(** *** [datetime.strptime(s, "%m/%d/%Y")]

    The format compiles to the regular expression
    [(?P<m>1[0-2]|0[1-9]|[1-9])/(?P<d>3[0-1]|[1-2]\d|0[1-9]|[1-9]| [1-9])/(?P<Y>\d\d\d\d)],
    matched at the start of the string; the whole string must be consumed
    and the fields must form a date.  A parser returns its alternatives in
    the order the regular expression tries them. *)

Definition is_decimal (c : ascii) : bool := (48 <=? ord c) && (ord c <=? 57).
Definition digit (c : ascii) : Z := ord c - 48.
Definition in_range (lo hi : Z) (c : ascii) : bool :=
  (lo <=? digit c) && (digit c <=? hi) && is_decimal c.

Definition parser (A : Type) := list ascii -> list (A * list ascii).

Definition re_m : parser Z := fun s =>
  match s with
  | a :: b :: r =>
      if Ascii.eqb a "1" && in_range 0 2 b then [(10 + digit b, r)] else []
  | _ => []
  end ++
  match s with
  | a :: b :: r =>
      if Ascii.eqb a "0" && in_range 1 9 b then [(digit b, r)] else []
  | _ => []
  end ++
  match s with
  | a :: r => if in_range 1 9 a then [(digit a, r)] else []
  | _ => []
  end.

Definition re_d : parser Z := fun s =>
  match s with
  | a :: b :: r =>
      if Ascii.eqb a "3" && in_range 0 1 b then [(30 + digit b, r)] else []
  | _ => []
  end ++
  match s with
  | a :: b :: r =>
      if in_range 1 2 a && is_decimal b then [(10 * digit a + digit b, r)]
      else []
  | _ => []
  end ++
  match s with
  | a :: b :: r =>
      if Ascii.eqb a "0" && in_range 1 9 b then [(digit b, r)] else []
  | _ => []
  end ++
  match s with
  | a :: r => if in_range 1 9 a then [(digit a, r)] else []
  | _ => []
  end ++
  match s with
  | a :: b :: r =>
      if Ascii.eqb a " " && in_range 1 9 b then [(digit b, r)] else []
  | _ => []
  end.

Definition re_Y : parser Z := fun s =>
  match s with
  | a :: b :: c :: d :: r =>
      if is_decimal a && is_decimal b && is_decimal c && is_decimal d
      then [(1000 * digit a + 100 * digit b + 10 * digit c + digit d, r)]
      else []
  | _ => []
  end.

Definition re_slash : parser unit := fun s =>
  match s with
  | a :: r => if Ascii.eqb a "/" then [(tt, r)] else []
  | _ => []
  end.

(** The matches of the whole expression, first match first. *)
Definition re_mdY : parser (Z * Z * Z) := fun s =>
  '(m, s1) ← re_m s;
  '(_, s2) ← re_slash s1;
  '(d, s3) ← re_d s2;
  '(_, s4) ← re_slash s3;
  '(y, s5) ← re_Y s4;
  [((m, d, y), s5)].

(** [None] stands for the [ValueError] the caller catches. *)
Definition strptime (s : str) : option datetime :=
  match re_mdY (chars s) with
  | [] => None                          (* does not match the format *)
  | ((m, d, y), rest) :: _ =>
      match rest with
      | [] => datetime_of_date y m d
      | _ :: _ => None                  (* unconverted data remains *)
      end
  end.

Example strptime_valid : strptime "02/01/2025" = Some 63873964800000000.
Proof. vm_compute. reflexivity. Qed.

Example strptime_short : strptime "2/1/2025" = strptime "02/01/2025".
Proof. vm_compute. reflexivity. Qed.

Example strptime_13_45 : strptime "13/45/2025" = None.
Proof. vm_compute. reflexivity. Qed.

Example strptime_feb_30 : strptime "02/30/2025" = None.
Proof. vm_compute. reflexivity. Qed.

Example strptime_min : strptime "01/01/0001" = Some datetime_min.
Proof. vm_compute. reflexivity. Qed.

Example strptime_empty : strptime "" = None.
Proof. vm_compute. reflexivity. Qed.

(** ** class Task *)

Record Task := {
  created : datetime;
  completed : option datetime;
  deleted : bool;
  name : str;
  unique_id : Z;
  priority : Z;
  due_date : option datetime
}.

(** [Task(unique_id, name, priority, due_date)], constructed at time [now]. *)
Definition Task_init (now : datetime) (unique_id : Z) (name : str)
    (priority : Z) (due_date : option datetime) : Task :=
  {| created := now; completed := None; deleted := false; name := name;
     unique_id := unique_id; priority := priority; due_date := due_date |}.

Definition mark_completed (now : datetime) (self : Task) : Task :=
  {| created := created self; completed := Some now; deleted := deleted self;
     name := name self; unique_id := unique_id self;
     priority := priority self; due_date := due_date self |}.

Definition mark_deleted (self : Task) : Task :=
  {| created := created self; completed := completed self; deleted := true;
     name := name self; unique_id := unique_id self;
     priority := priority self; due_date := due_date self |}.

(** ** pickle

    What [pickle] saves of the task list: the list, and for each [Task]
    its class and its instance dictionary (the attributes in the order
    [__init__] assigned them).  Loading rebuilds each instance from that
    dictionary without running [__init__]. *)

Inductive pyval :=
| PyNone
| PyBool (b : bool)
| PyInt (n : Z)
| PyStr (s : str)
| PyDatetime (d : datetime)
| PyList (l : list pyval)
| PyObject (cls : str) (dict : list (str * pyval)).

Definition py_option (d : option datetime) : pyval :=
  match d with Some d => PyDatetime d | None => PyNone end.

Definition Task_to_py (t : Task) : pyval :=
  PyObject "Task"
    [("created", PyDatetime (created t));
     ("completed", py_option (completed t));
     ("deleted", PyBool (deleted t));
     ("name", PyStr (name t));
     ("unique_id", PyInt (unique_id t));
     ("priority", PyInt (priority t));
     ("due_date", py_option (due_date t))].

Definition tasks_to_py (ts : list Task) : pyval := PyList (Task_to_py <$> ts).

Fixpoint getattr (d : list (str * pyval)) (k : str) : option pyval :=
  match d with
  | [] => None
  | (k', v) :: d' => if String.eqb k' k then Some v else getattr d' k
  end.

Definition as_datetime (v : pyval) : option datetime :=
  match v with PyDatetime d => Some d | _ => None end.
Definition as_option (v : pyval) : option (option datetime) :=
  match v with PyNone => Some None | PyDatetime d => Some (Some d) | _ => None end.
Definition as_bool (v : pyval) : option bool :=
  match v with PyBool b => Some b | _ => None end.
Definition as_int (v : pyval) : option Z :=
  match v with PyInt n => Some n | _ => None end.
Definition as_str (v : pyval) : option str :=
  match v with PyStr s => Some s | _ => None end.

(** A value read back as a [Task]; [None] when it is not one. *)
Definition Task_of_py (v : pyval) : option Task :=
  match v with
  | PyObject cls d =>
      if String.eqb cls "Task" then
        c ← getattr d "created" ≫= as_datetime;
        f ← getattr d "completed" ≫= as_option;
        x ← getattr d "deleted" ≫= as_bool;
        n ← getattr d "name" ≫= as_str;
        i ← getattr d "unique_id" ≫= as_int;
        p ← getattr d "priority" ≫= as_int;
        u ← getattr d "due_date" ≫= as_option;
        Some {| created := c; completed := f; deleted := x; name := n;
                unique_id := i; priority := p; due_date := u |}
      else None
  | _ => None
  end.

Definition tasks_of_py (v : pyval) : option (list Task) :=
  match v with
  | PyList l => mapM Task_of_py l
  | _ => None
  end.

(** The byte level of [pickle] is an interface: a type of file contents,
    [pickle.dumps], [pickle.loads] (with [None] for every exception it
    raises), and the law that loading a dump gives the value back. *)
Class Pickler := {
  blob : Type;
  dumps : pyval → blob;
  loads : blob → option pyval;
  loads_dumps : ∀ v, loads (dumps v) = Some v
}.

(** An in-memory pickler, which keeps the value itself. *)
#[export] Program Instance memory_pickler : Pickler :=
  {| blob := pyval; dumps := id; loads := Some |}.
Next Obligation. reflexivity. Qed.

(** ** Python's [sorted]

    [sorted(l, key=key, reverse=reverse)] compares keys with [<] only and
    is stable.  The ascending sort is a stable insertion sort; with
    [reverse=True] the list is reversed before and after the ascending
    sort, which keeps elements with equal keys in their original order. *)
Section Sorted.
Context {A K : Type} (lt : K → K → bool) (key : A → K).

Fixpoint insert_sorted (x : A) (l : list A) : list A :=
  match l with
  | [] => [x]
  | y :: l' =>
      if lt (key y) (key x) then y :: insert_sorted x l' else x :: y :: l'
  end.

Definition sort_ascending (l : list A) : list A := foldr insert_sorted [] l.

Definition sorted (rev_flag : bool) (l : list A) : list A :=
  if rev_flag then reverse (sort_ascending (reverse l))
  else sort_ascending l.
End Sorted.

(** [a < b] for two tuples [(datetime, int)]: the first components that
    differ decide. *)
Definition tuple_lt (a b : datetime * Z) : bool :=
  if negb (a.1 =? b.1) then a.1 <? b.1 else a.2 <? b.2.

(** ** class Tasks *)

Abbreviation files := (gmap string blob).

Record Tasks := { file_path : string; tasks : list Task }.

Section Store.
Context `{Pickler}.

(** [open(path, "wb")] followed by [pickle.dump]: the file is replaced. *)
Definition pickle_tasks (self : Tasks) (fs : files) : files :=
  <[file_path self := dumps (tasks_to_py (tasks self))]> fs.

(** [None] when unpickling raises or yields no list of tasks. *)
Definition load_tasks (self : Tasks) (fs : files) : option Tasks :=
  match fs !! file_path self with
  | Some b =>
      ts ← loads b ≫= tasks_of_py;
      Some {| file_path := file_path self; tasks := ts |}
  | None => Some {| file_path := file_path self; tasks := [] |}
  end.

(** [Tasks()] *)
Definition Tasks_init (fs : files) : option Tasks :=
  load_tasks {| file_path := ".todo.pickle"; tasks := [] |} fs.

Definition Tasks_add (self : Tasks) (task : Task) (fs : files)
    : Tasks * files :=
  let self := {| file_path := file_path self; tasks := tasks self ++ [task] |} in
  (self, pickle_tasks self fs).

Definition Tasks_delete (self : Tasks) (uid : Z) (fs : files)
    : Tasks * files :=
  let self := {| file_path := file_path self;
                 tasks := filter (λ t, unique_id t ≠ uid) (tasks self) |} in
  (self, pickle_tasks self fs).

(** The loop of [Tasks.done] over the task objects: the first task with
    the id is completed in place; [None] when the loop runs out. *)
Fixpoint done_loop (now : datetime) (uid : Z) (ts : list Task)
    : option (list Task) :=
  match ts with
  | [] => None
  | task :: ts' =>
      if unique_id task =? uid then Some (mark_completed now task :: ts')
      else cons task <$> done_loop now uid ts'
  end.

Definition Tasks_done (now : datetime) (self : Tasks) (uid : Z) (fs : files)
    : bool * Tasks * files :=
  match done_loop now uid (tasks self) with
  | Some ts =>
      let self := {| file_path := file_path self; tasks := ts |} in
      (true, self, pickle_tasks self fs)
  | None => (false, self, fs)
  end.
End Store.

Definition list_key (t : Task) : datetime * Z :=
  (match due_date t with Some d => d | None => datetime_min end, - priority t).

Definition active (t : Task) : Prop := completed t = None ∧ deleted t = false.

#[export] Instance active_dec t : Decision (active t).
Proof. unfold active. apply _. Defined.

Definition Tasks_list (self : Tasks) : list Task :=
  sorted tuple_lt list_key true (filter active (tasks self)).

Definition matches (keywords : list str) (t : Task) : Prop :=
  existsb (λ keyword, str_in (lower keyword) (lower (name t))) keywords = true.

#[export] Instance matches_dec kws t : Decision (matches kws t).
Proof. unfold matches. apply _. Defined.

Definition Tasks_query (self : Tasks) (keywords : list str) : list Task :=
  let not_completed_tasks := filter (λ t, completed t = None) (tasks self) in
  filter (matches keywords) not_completed_tasks.

Definition report_key (t : Task) : datetime * Z :=
  (match due_date t with Some d => d | None => datetime_max end, - priority t).

Definition Tasks_report (self : Tasks) : list Task :=
  sorted tuple_lt report_key false (tasks self).

(** The task object [get_task_by_id] returns is an element of the list:
    its position stands for the reference. *)
Fixpoint get_task_by_id_from (i : nat) (ts : list Task) (uid : Z)
    : option (nat * Task) :=
  match ts with
  | [] => None
  | task :: ts' =>
      if unique_id task =? uid then Some (i, task)
      else get_task_by_id_from (S i) ts' uid
  end.

Definition get_task_by_id (self : Tasks) (uid : Z) : option (nat * Task) :=
  get_task_by_id_from 0 (tasks self) uid.

(** ** handle_command *)

(** The namespace [argparse] hands to [handle_command]. *)
Record Args := {
  args_add : option str;           (* --add [NAME]; const "" *)
  args_due : option str;           (* --due *)
  args_priority : option Z;        (* --priority, one of 1, 2, 3 *)
  args_list : bool;                (* --list *)
  args_query : option (list str);  (* --query KEYWORD... *)
  args_done : option Z;            (* --done ID *)
  args_delete : option Z;          (* --delete ID *)
  args_report : bool               (* --report *)
}.

(** What a run writes to standard output, one entry per [print] or
    [print_tasks] call. *)
Inductive message :=
| ErrorCreatingTask            (* There was an error in creating your task. ... *)
| WarningInvalidDueDate        (* Warning: Invalid due date format. Task will be added without a due date. *)
| CreatedTask (uid : Z)        (* Created task <uid> *)
| CompletedTask (uid : Z)      (* Completed task <uid> *)
| DeletedTask (uid : Z)        (* Deleted task <uid> *)
| ErrorNotFound (uid : Z)      (* Error: Task with ID <uid> not found. *)
| ErrorNoCommand               (* Error: No valid command provided. ... *)
| PrintTasks (rows : list Task) (show_created show_completed show_deleted : bool).

(** [x or d] for an optional integer. *)
Definition int_or (x : option Z) (d : Z) : Z :=
  match x with
  | Some n => if n =? 0 then d else n
  | None => d
  end.

(** [bool(x)] for an optional integer and for an optional list. *)
Definition int_truthy (x : option Z) : bool :=
  match x with Some n => negb (n =? 0) | None => false end.
Definition list_truthy {A} (x : option (list A)) : bool :=
  match x with Some (_ :: _) => true | _ => false end.

Section Command.
Context `{Pickler}.

(** The result is the file system and the output of the run; [None]
    when [Tasks()] raises. *)
Definition handle_command (now : datetime) (args : Args) (fs : files)
    : option (files * list message) :=
  tasks_manager ← Tasks_init fs;
  match args_add args with
  | Some add =>
      if negb (str_truthy add) || isdigit add then
        Some (fs, [ErrorCreatingTask])
      else
        let '(due_date, out) :=
          match args_due args with
          | Some due =>
              if str_truthy due then
                match strptime due with
                | Some d => (Some d, [])
                | None => (None, [WarningInvalidDueDate])
                end
              else (None, [])
          | None => (None, [])
          end in
        let unique_id := Z.of_nat (length (tasks tasks_manager)) + 1 in
        let '(_, fs) :=
          Tasks_add tasks_manager
            (Task_init now unique_id add (int_or (args_priority args) 1) due_date)
            fs in
        Some (fs, out ++ [CreatedTask unique_id])
  | None =>
      if args_list args then
        Some (fs, [PrintTasks (Tasks_list tasks_manager) false false false])
      else if list_truthy (args_query args) then
        Some (fs, [PrintTasks
                     (Tasks_query tasks_manager (default [] (args_query args)))
                     false false false])
      else if int_truthy (args_done args) then
        let uid := default 0 (args_done args) in
        let '(found, _, fs) := Tasks_done now tasks_manager uid fs in
        Some (fs, [if found then CompletedTask uid else ErrorNotFound uid])
      else if int_truthy (args_delete args) then
        let uid := default 0 (args_delete args) in
        match get_task_by_id tasks_manager uid with
        | Some (i, task) =>
            let tasks_manager :=
              {| file_path := file_path tasks_manager;
                 tasks := <[i := mark_deleted task]> (tasks tasks_manager) |} in
            Some (pickle_tasks tasks_manager fs, [DeletedTask uid])
        | None => Some (fs, [ErrorNotFound uid])
        end
      else if args_report args then
        Some (fs, [PrintTasks (tasks tasks_manager) true true true])
      else Some (fs, [ErrorNoCommand])
  end.
End Command.

(** The arguments of the command lines the parser accepts. *)
Definition no_args : Args :=
  {| args_add := None; args_due := None; args_priority := None;
     args_list := false; args_query := None; args_done := None;
     args_delete := None; args_report := false |}.

Definition add_args (nm : str) (due : option str) (prio : option Z) : Args :=
  {| args_add := Some nm; args_due := due; args_priority := prio;
     args_list := false; args_query := None; args_done := None;
     args_delete := None; args_report := false |}.

Definition done_args (uid : Z) : Args :=
  {| args_add := None; args_due := None; args_priority := None;
     args_list := false; args_query := None; args_done := Some uid;
     args_delete := None; args_report := false |}.

Definition delete_args (uid : Z) : Args :=
  {| args_add := None; args_due := None; args_priority := None;
     args_list := false; args_query := None; args_done := None;
     args_delete := Some uid; args_report := false |}.

Definition report_args : Args :=
  {| args_add := None; args_due := None; args_priority := None;
     args_list := false; args_query := None; args_done := None;
     args_delete := None; args_report := true |}.

(** ** Sessions

    The operations of a store over its lifetime.  [Add], [MarkCompleted]
    and [MarkDeleted] are the command lines [--add], [--done] and
    [--delete]; [Delete] is a call of [Tasks.delete] on a freshly loaded
    manager.  Every operation starts from the file the previous one left. *)
Inductive operation :=
| Add (now : datetime) (nm : str) (due : option str) (prio : option Z)
| Delete (uid : Z)
| MarkCompleted (now : datetime) (uid : Z)
| MarkDeleted (uid : Z).

Section Session.
Context `{Pickler}.

Definition step (op : operation) (fs : files) : option (files * list message) :=
  match op with
  | Add now nm due prio => handle_command now (add_args nm due prio) fs
  | Delete uid =>
      tasks_manager ← Tasks_init fs;
      Some ((Tasks_delete tasks_manager uid fs).2, [])
  | MarkCompleted now uid => handle_command now (done_args uid) fs
  | MarkDeleted uid => handle_command 0 (delete_args uid) fs
  end.

Fixpoint run (ops : list operation) (fs : files)
    : option (files * list message) :=
  match ops with
  | [] => Some (fs, [])
  | op :: ops' =>
      '(fs1, out1) ← step op fs;
      '(fs2, out2) ← run ops' fs1;
      Some (fs2, out1 ++ out2)
  end.
End Session.

(** The ids of the tasks a session created, oldest first. *)
Definition created_ids (out : list message) : list Z :=
  omap (λ m, match m with CreatedTask uid => Some uid | _ => None end) out.

Definition is_hard_delete (op : operation) : bool :=
  match op with Delete _ => true | _ => false end.

(** ** Order of a sequence *)

(** [a] occurs at a position before an occurrence of [b]. *)
Definition before {A} (a b : A) (l : list A) : Prop :=
  ∃ l1 l2 l3, l = l1 ++ a :: l2 ++ b :: l3.

(** Every due date of the list is a calendar date (midnight of a day of
    the years 1 to 9999), as [strptime] produces them. *)
Definition calendar_date (d : datetime) : Prop :=
  ∃ y m dd, datetime_of_date y m dd = Some d.

(** * Properties *)

(** ** Sorting *)
Section SortedFacts.
Context {A K : Type} (lt : K → K → bool) (key : A → K).

(** [a] may stand before [b] in an ascending sequence. *)
Definition ascending (a b : A) : Prop := lt (key b) (key a) = false.

Lemma insert_sorted_perm x l : insert_sorted lt key x l ≡ₚ x :: l.
Proof.
  induction l as [|y l IH]; simpl; [done|].
  destruct (lt (key y) (key x)); [|done].
  rewrite IH. apply Permutation_swap.
Qed.

Lemma sort_ascending_perm l : sort_ascending lt key l ≡ₚ l.
Proof.
  induction l as [|x l IH]; simpl; [done|].
  by rewrite insert_sorted_perm, IH.
Qed.

Lemma sorted_perm r l : sorted lt key r l ≡ₚ l.
Proof.
  unfold sorted. destruct r; [|apply sort_ascending_perm].
  by rewrite reverse_Permutation, sort_ascending_perm, reverse_Permutation.
Qed.

Hypothesis lt_asym : ∀ a b, lt a b = true → lt b a = false.
Hypothesis ge_trans : ∀ a b c, lt b a = false → lt c b = false → lt c a = false.

Lemma insert_sorted_sorted x l :
  StronglySorted ascending l → StronglySorted ascending (insert_sorted lt key x l).
Proof.
  induction l as [|y l IH]; simpl; intros Hl.
  - repeat constructor.
  - apply StronglySorted_cons in Hl as [Hy Hl].
    destruct (lt (key y) (key x)) eqn:E.
    + constructor; [by apply IH|].
      rewrite insert_sorted_perm. constructor; [|done].
      by apply lt_asym.
    + constructor; [by constructor|].
      constructor; [done|].
      eapply Forall_impl; [exact Hy|].
      intros z Hz. unfold ascending in *. eauto.
Qed.

Lemma sort_ascending_sorted l : StronglySorted ascending (sort_ascending lt key l).
Proof.
  induction l as [|x l IH]; simpl; [constructor|].
  by apply insert_sorted_sorted.
Qed.

Lemma StronglySorted_reverse (R : relation A) l :
  StronglySorted R l → StronglySorted (flip R) (reverse l).
Proof.
  induction 1 as [|x l Hl IH Hx]; [constructor|].
  rewrite reverse_cons. apply StronglySorted_app_2; [|done|repeat constructor].
  intros a b Ha Hb. apply list_elem_of_singleton in Hb as ->.
  rewrite elem_of_reverse in Ha. unfold flip.
  rewrite Forall_forall in Hx. by apply Hx.
Qed.

(** The order of the result: ascending, or descending with [reverse]. *)
Lemma sorted_sorted (r : bool) l :
  StronglySorted (if r then flip ascending else ascending) (sorted lt key r l).
Proof.
  unfold sorted. destruct r; [|apply sort_ascending_sorted].
  apply StronglySorted_reverse, sort_ascending_sorted.
Qed.

(** Stability: the elements of one key keep their order. *)
Hypothesis lt_irrefl : ∀ a, lt a a = false.
Context `{EqDecision K}.

Lemma insert_sorted_stable k x l :
  filter (λ a, key a = k) (insert_sorted lt key x l)
  = filter (λ a, key a = k) (x :: l).
Proof.
  induction l as [|y l IH]; simpl; [done|].
  destruct (lt (key y) (key x)) eqn:E; [|done].
  rewrite !filter_cons in *. rewrite IH.
  destruct (decide (key y = k)) as [<-|], (decide (key x = _)) as [Hx|]; try done.
  rewrite Hx, lt_irrefl in E. done.
Qed.

Lemma sort_ascending_stable k l :
  filter (λ a, key a = k) (sort_ascending lt key l) = filter (λ a, key a = k) l.
Proof.
  induction l as [|x l IH]; simpl; [done|].
  rewrite insert_sorted_stable, !filter_cons. by rewrite IH.
Qed.

Lemma sorted_stable r k l :
  filter (λ a, key a = k) (sorted lt key r l) = filter (λ a, key a = k) l.
Proof.
  unfold sorted. destruct r; [|apply sort_ascending_stable].
  by rewrite filter_reverse, sort_ascending_stable, <-filter_reverse, reverse_involutive.
Qed.
End SortedFacts.

Section Before.
Context {A : Type}.
Implicit Types l : list A.

Lemma before_sorted (R : relation A) a b l :
  StronglySorted R l → before a b l → R a b.
Proof.
  intros Hl (l1 & l2 & l3 & ->).
  apply StronglySorted_app_1_r, StronglySorted_cons in Hl as [Hl _].
  rewrite Forall_forall in Hl. apply Hl. set_solver.
Qed.

Lemma before_elem_of a b l : before a b l → a ∈ l ∧ b ∈ l.
Proof. intros (l1 & l2 & l3 & ->). set_solver. Qed.

Lemma elem_of_before a b l :
  a ∈ l → b ∈ l → a ≠ b → before a b l ∨ before b a l.
Proof.
  intros Ha Hb Hne. apply list_elem_of_split in Ha as (l1 & l2 & ->).
  apply elem_of_app in Hb as [Hb|Hb].
  - right. apply list_elem_of_split in Hb as (k1 & k2 & ->).
    exists k1, k2, l2. by rewrite <-app_assoc.
  - left. apply elem_of_cons in Hb as [->|Hb]; [done|].
    apply list_elem_of_split in Hb as (k1 & k2 & ->).
    by exists l1, k1, k2.
Qed.

(** In a sorted sequence, an element that may not stand after another
    stands before it, and only before it. *)
Lemma sorted_before (R : relation A) a b l :
  StronglySorted R l → a ∈ l → b ∈ l → a ≠ b → ¬ R b a →
  before a b l ∧ ¬ before b a l.
Proof.
  intros Hl Ha Hb Hne Hba.
  assert (¬ before b a l) as Hn
    by (intros Hx; apply Hba; by eapply before_sorted).
  split; [|done].
  by destruct (elem_of_before a b l) as [|].
Qed.
End Before.

(** ** Tuples and dates *)

Lemma tuple_lt_spec a b :
  tuple_lt a b = true ↔ a.1 < b.1 ∨ (a.1 = b.1 ∧ a.2 < b.2).
Proof.
  unfold tuple_lt. destruct (Z.eqb_spec a.1 b.1); simpl.
  - rewrite Z.ltb_lt. lia.
  - rewrite Z.ltb_lt. lia.
Qed.

Lemma tuple_ge_spec a b :
  tuple_lt a b = false ↔ b.1 < a.1 ∨ (a.1 = b.1 ∧ b.2 ≤ a.2).
Proof.
  rewrite <-not_true_iff_false, tuple_lt_spec. lia.
Qed.

Lemma tuple_lt_asym a b : tuple_lt a b = true → tuple_lt b a = false.
Proof. rewrite tuple_lt_spec, tuple_ge_spec. lia. Qed.

Lemma tuple_ge_trans a b c :
  tuple_lt b a = false → tuple_lt c b = false → tuple_lt c a = false.
Proof. rewrite !tuple_ge_spec. lia. Qed.

Lemma tuple_lt_irrefl a : tuple_lt a a = false.
Proof. rewrite tuple_ge_spec. lia. Qed.

Lemma datetime_max_value : datetime_max = 315537897599999999.
Proof. reflexivity. Qed.

Lemma days_before_month_bounds y m :
  1 ≤ m ≤ 12 →
  0 ≤ days_before_month y m ∧
  days_before_month y m + days_in_month y m ≤ 365 + (if is_leap y then 1 else 0).
Proof.
  intros Hm. unfold days_before_month, days_in_month.
  assert (m = 1 ∨ m = 2 ∨ m = 3 ∨ m = 4 ∨ m = 5 ∨ m = 6 ∨ m = 7 ∨ m = 8
          ∨ m = 9 ∨ m = 10 ∨ m = 11 ∨ m = 12) as Hcases by lia.
  destruct (is_leap y);
    repeat (destruct Hcases as [->|Hcases]; [simpl; lia|]);
    subst; simpl; lia.
Qed.

(** Euclidean division by a positive constant, as two linear facts. *)
Ltac div_facts a b :=
  pose proof (Z.div_mod a b ltac:(lia));
  pose proof (Z.mod_pos_bound a b ltac:(lia)).

Lemma ymd2ord_bounds y m d :
  1 ≤ y ≤ 9999 → 1 ≤ m ≤ 12 → 1 ≤ d ≤ days_in_month y m →
  1 ≤ ymd2ord y m d ≤ 3652059.
Proof.
  intros Hy Hm Hd.
  pose proof (days_before_month_bounds y m Hm) as [Hlo Hhi].
  unfold ymd2ord, days_before_year.
  destruct (decide (y = 9999)) as [->|Hne].
  - change (is_leap 9999) with false in Hhi. cbv iota in Hhi.
    change ((9999 - 1) * 365 + (9999 - 1) / 4 - (9999 - 1) / 100
            + (9999 - 1) / 400) with 3651694.
    lia.
  - assert ((if is_leap y then 1 else 0) ≤ 1) by (destruct (is_leap y); lia).
    div_facts (y - 1) 4. div_facts (y - 1) 100. div_facts (y - 1) 400.
    lia.
Qed.

(** A calendar date lies in the range of [datetime] and strictly below
    [datetime.max], which is the last microsecond of the last day. *)
Lemma calendar_date_bounds d :
  calendar_date d → datetime_min ≤ d < datetime_max.
Proof.
  intros (y & m & dd & Hd). unfold datetime_of_date, MINYEAR, MAXYEAR in Hd.
  destruct (_ && _) eqn:E in Hd; [|done]. injection Hd as <-.
  repeat (apply andb_prop in E as [E ?]).
  pose proof (ymd2ord_bounds y m dd). rewrite datetime_max_value.
  unfold datetime_min, us_per_day. lia.
Qed.

Lemma strptime_calendar_date s d : strptime s = Some d → calendar_date d.
Proof.
  unfold strptime. destruct (re_mdY _) as [|[[[m dd] y] [|? ?]] ?]; try done.
  intros Hd. by exists y, m, dd.
Qed.

(** ** Substrings *)

Lemma starts_with_spec p s : starts_with p s = true ↔ ∃ post, s = p ++ post.
Proof.
  revert s. induction p as [|a p IH]; intros s; simpl.
  - split; [eauto|done].
  - destruct s as [|b s].
    + split; [done|]. by intros [? ?].
    + destruct (Ascii.eqb_spec a b) as [->|Hne].
      * rewrite IH. split; intros [post Hp]; exists post; congruence.
      * split; [done|]. intros [post Hp]. congruence.
Qed.

(** [sub in s] holds exactly when [sub] is a contiguous part of [s]. *)
Lemma find_in_spec sub s :
  find_in sub s = true ↔ ∃ pre post, s = pre ++ sub ++ post.
Proof.
  induction s as [|b s IH].
  - simpl. rewrite orb_false_r, starts_with_spec. split.
    + intros [post Hp]. by exists [], post.
    + intros (pre & post & Hp). symmetry in Hp.
      apply app_eq_nil in Hp as [-> Hp]. eauto.
  - cbn [find_in]. rewrite orb_true_iff, starts_with_spec, IH. split.
    + intros [[post Hp]|(pre & post & Hp)].
      * by exists [], post.
      * exists (b :: pre), post. by rewrite Hp.
    + intros ([|c pre] & post & Hp); [left; eauto|].
      right. exists pre, post. by injection Hp.
Qed.

(** ** Tasks.list and Tasks.report *)

(** The ordering statements of the specification, for a sequence [l] of
    tasks.  A task has a higher priority than another when its [priority]
    number is greater. *)
Definition later_due_first (l : list Task) : Prop :=
  ∀ a b da db, before a b l →
    due_date a = Some da → due_date b = Some db → db ≤ da.

Definition earlier_due_first (l : list Task) : Prop :=
  ∀ a b da db, before a b l →
    due_date a = Some da → due_date b = Some db → da ≤ db.

Definition undated_last (l : list Task) : Prop :=
  ∀ a b, before a b l → due_date a = None → due_date b = None.

Definition higher_priority_first (l : list Task) : Prop :=
  ∀ a b, before a b l → due_date a = due_date b → priority b ≤ priority a.

Definition lower_priority_first (l : list Task) : Prop :=
  ∀ a b, before a b l →
    (list_key a).1 = (list_key b).1 → priority a ≤ priority b.

(** An undated task is followed by undated tasks and by tasks due on
    0001-01-01 only. *)
Definition undated_last_but_min (l : list Task) : Prop :=
  ∀ a b, before a b l → due_date a = None →
    due_date b = None ∨ due_date b = Some datetime_min.

Definition well_dated (l : list Task) : Prop :=
  ∀ t d, t ∈ l → due_date t = Some d → calendar_date d.

Lemma Tasks_list_perm self : Tasks_list self ≡ₚ filter active (tasks self).
Proof. apply sorted_perm. Qed.

(** [Tasks.list] is descending in its key. *)
Lemma Tasks_list_descending self a b :
  before a b (Tasks_list self) → tuple_lt (list_key a) (list_key b) = false.
Proof.
  apply (before_sorted (flip (ascending tuple_lt list_key))).
  apply (sorted_sorted tuple_lt list_key tuple_lt_asym tuple_ge_trans true).
Qed.

(** [Tasks.report] is ascending in its key. *)
Lemma Tasks_report_ascending self a b :
  before a b (Tasks_report self) → tuple_lt (report_key b) (report_key a) = false.
Proof.
  apply (before_sorted (ascending tuple_lt report_key)).
  apply (sorted_sorted tuple_lt report_key tuple_lt_asym tuple_ge_trans false).
Qed.

(** Tasks of one key are listed and reported in the order of the store. *)
Lemma Tasks_list_stable self k :
  filter (λ t, list_key t = k) (Tasks_list self)
  = filter (λ t, list_key t = k) (filter active (tasks self)).
Proof. apply sorted_stable, tuple_lt_irrefl. Qed.

Lemma Tasks_report_stable self k :
  filter (λ t, report_key t = k) (Tasks_report self)
  = filter (λ t, report_key t = k) (tasks self).
Proof. apply sorted_stable, tuple_lt_irrefl. Qed.

(** The store of the specification's sorting example, with one more task
    that is completed and one that is deleted. *)
Definition example_now : datetime := 63871286400000000.

Definition example_tasks : list Task :=
  [ Task_init example_now 1 "file taxes" 1 (strptime "01/01/2025");
    Task_init example_now 2 "pay rent" 3 (strptime "02/01/2025");
    Task_init example_now 3 "walk the dog" 1 None;
    mark_completed example_now
      (Task_init example_now 4 "buy eggs" 2 (strptime "03/01/2025"));
    mark_deleted (Task_init example_now 5 "Call RENTAL office" 2 None) ].

Definition example_store : Tasks :=
  {| file_path := ".todo.pickle"; tasks := example_tasks |}.

(** Two tasks due on the same day, of priorities 1 and 3. *)
Definition same_day_store : Tasks :=
  {| file_path := ".todo.pickle";
     tasks := [ Task_init example_now 1 "low" 1 (strptime "01/01/2025");
                Task_init example_now 2 "high" 3 (strptime "01/01/2025") ] |}.

(** An undated task and a task due on 0001-01-01. *)
Definition first_day_store : Tasks :=
  {| file_path := ".todo.pickle";
     tasks := [ Task_init example_now 1 "undated" 1 None;
                Task_init example_now 2 "dated" 1 (strptime "01/01/0001") ] |}.

Example example_list :
  unique_id <$> Tasks_list example_store = [2; 1; 3].
Proof. vm_compute. reflexivity. Qed.

Example example_report :
  unique_id <$> Tasks_report example_store = [1; 2; 4; 5; 3].
Proof. vm_compute. reflexivity. Qed.

(** The due dates of a literal list of tasks are [None] or results of
    [strptime]. *)
Ltac solve_well_dated :=
  let t := fresh "t" in let d := fresh "d" in
  let Ht := fresh "Ht" in let Hd := fresh "Hd" in
  intros t d Ht Hd; cbn [tasks] in Ht;
  repeat (apply elem_of_cons in Ht as [->|Ht]);
  [..|by apply elem_of_nil in Ht];
  cbn [due_date Task_init mark_completed mark_deleted] in Hd;
  first [ discriminate Hd | by eapply strptime_calendar_date ].

Lemma well_dated_example : well_dated example_tasks.
Proof. unfold example_tasks. solve_well_dated. Qed.

Lemma well_dated_same_day : well_dated (tasks same_day_store).
Proof. unfold same_day_store. solve_well_dated. Qed.

Lemma well_dated_first_day : well_dated (tasks first_day_store).
Proof. unfold first_day_store. solve_well_dated. Qed.

(** The ordering the specification states for [ListActive]. *)
Definition list_active_claim : Prop :=
  ∀ self, well_dated (tasks self) →
    Tasks_list self ≡ₚ filter active (tasks self) ∧
    later_due_first (Tasks_list self) ∧
    undated_last (Tasks_list self) ∧
    higher_priority_first (Tasks_list self).

Lemma before_two {A} (a b : A) : before a b [a; b].
Proof. by exists [], [], []. Qed.

(** C1 (as stated, refuted).  Of two active tasks due on the same day,
    [Tasks.list] returns the one of priority 1 before the one of priority 3;
    and it returns an undated task before a task due on 0001-01-01.  So
    neither "higher priority first" nor "undated after all dated tasks"
    holds of every store. *)
Lemma Tasks_list_claim_fails :
  ¬ (∀ self, well_dated (tasks self) → higher_priority_first (Tasks_list self))
  ∧ ¬ (∀ self, well_dated (tasks self) → undated_last (Tasks_list self))
  ∧ ¬ list_active_claim.
Proof.
  assert (¬ (∀ self, well_dated (tasks self) →
                higher_priority_first (Tasks_list self))) as Hprio.
  { intros Hc.
    specialize (Hc same_day_store well_dated_same_day).
    change (Tasks_list same_day_store) with (tasks same_day_store) in Hc.
    specialize (Hc _ _ (before_two _ _) eq_refl). simpl in Hc. lia. }
  split; [done|]. split.
  - intros Hc.
    specialize (Hc first_day_store well_dated_first_day).
    change (Tasks_list first_day_store) with (tasks first_day_store) in Hc.
    by specialize (Hc _ _ (before_two _ _) eq_refl).
  - intros Hc. apply Hprio. intros self Hwf. by apply Hc.
Qed.

Lemma Tasks_list_elem_of self t :
  t ∈ Tasks_list self ↔ t ∈ tasks self ∧ completed t = None ∧ deleted t = false.
Proof.
  rewrite Tasks_list_perm, list_elem_of_filter. unfold active. tauto.
Qed.

(** C1 (amended).  [Tasks.list] returns exactly the active tasks of the
    store, in descending order of the key (due date or [datetime.min],
    minus priority): a task due later comes first; an undated task is
    followed only by undated tasks and tasks due on 0001-01-01, whose key
    has the same first component; and among tasks whose keys agree on
    that component the lower priority number comes first. *)
Theorem Tasks_list_spec (self : Tasks) :
  well_dated (tasks self) →
  Tasks_list self ≡ₚ filter active (tasks self) ∧
  (∀ a b, before a b (Tasks_list self) →
     tuple_lt (list_key a) (list_key b) = false) ∧
  later_due_first (Tasks_list self) ∧
  undated_last_but_min (Tasks_list self) ∧
  lower_priority_first (Tasks_list self).
Proof.
  intros Hwf. split; [apply Tasks_list_perm|].
  split; [apply Tasks_list_descending|].
  split; [|split].
  - intros a b da db Hab Ha Hb.
    apply Tasks_list_descending, tuple_ge_spec in Hab.
    unfold list_key in Hab. rewrite Ha, Hb in Hab. simpl in Hab. lia.
  - intros a b Hab Ha.
    destruct (due_date b) as [db|] eqn:Hb; [right|by left].
    assert (calendar_date db) as Hdb.
    { apply (Hwf b); [|done].
      apply before_elem_of in Hab as [_ Hin].
      apply Tasks_list_elem_of in Hin. tauto. }
    apply calendar_date_bounds in Hdb.
    apply Tasks_list_descending, tuple_ge_spec in Hab.
    unfold list_key in Hab. rewrite Ha, Hb in Hab. simpl in Hab.
    f_equal. lia.
  - intros a b Hab Hkey.
    apply Tasks_list_descending, tuple_ge_spec in Hab.
    unfold list_key in *. simpl in *. lia.
Qed.

Lemma Tasks_list_spec_witness :
  well_dated (tasks example_store) ∧
  Tasks_list example_store ≡ₚ filter active (tasks example_store) ∧
  later_due_first (Tasks_list example_store) ∧
  undated_last_but_min (Tasks_list example_store) ∧
  lower_priority_first (Tasks_list example_store).
Proof.
  split; [exact well_dated_example|].
  destruct (Tasks_list_spec example_store well_dated_example)
    as (Hperm & _ & Hdue & Hundated & Hprio).
  repeat split; assumption.
Defined.

(** The order of two report keys, read on the tasks. *)
Lemma report_key_ge a b :
  tuple_lt (report_key b) (report_key a) = false →
  (∀ da db, due_date a = Some da → due_date b = Some db → da ≤ db) ∧
  (due_date a = None → ∀ db, due_date b = Some db → datetime_max ≤ db) ∧
  (due_date a = due_date b → priority b ≤ priority a).
Proof.
  rewrite tuple_ge_spec. unfold report_key. cbn [fst snd].
  generalize datetime_max. intros top Hab.
  destruct (due_date a) as [da|], (due_date b) as [db|];
    repeat split; intros; simplify_eq; lia.
Qed.

(** C8.  [Tasks.report] returns all the tasks of the store, completed and
    deleted ones included, in ascending order of the key (due date or
    [datetime.max], minus priority): a task due earlier comes first, an
    undated task is followed by undated tasks only, and of two tasks with
    the same due date the one with the greater priority comes first. *)
Theorem Tasks_report_spec (self : Tasks) :
  well_dated (tasks self) →
  Tasks_report self ≡ₚ tasks self ∧
  (∀ a b, before a b (Tasks_report self) →
     tuple_lt (report_key b) (report_key a) = false) ∧
  earlier_due_first (Tasks_report self) ∧
  undated_last (Tasks_report self) ∧
  higher_priority_first (Tasks_report self).
Proof.
  intros Hwf.
  assert (Tasks_report self ≡ₚ tasks self) as Hperm by apply sorted_perm.
  split; [done|]. split; [apply Tasks_report_ascending|].
  split; [|split].
  - intros a b da db Hab Ha Hb.
    apply Tasks_report_ascending, report_key_ge in Hab as (Hdue & _ & _).
    by apply Hdue.
  - intros a b Hab Ha.
    destruct (due_date b) as [db|] eqn:Hb; [exfalso|done].
    assert (calendar_date db) as Hdb.
    { apply (Hwf b); [|done].
      apply before_elem_of in Hab as [_ Hin]. by rewrite Hperm in Hin. }
    apply calendar_date_bounds in Hdb as [_ Hdb].
    apply Tasks_report_ascending, report_key_ge in Hab as (_ & Hundated & _).
    specialize (Hundated Ha db Hb).
    revert Hundated Hdb. generalize datetime_max. intros top. lia.
  - intros a b Hab Hdue.
    apply Tasks_report_ascending, report_key_ge in Hab as (_ & _ & Hprio).
    by apply Hprio.
Qed.

Lemma Tasks_report_spec_witness :
  well_dated (tasks example_store) ∧
  Tasks_report example_store ≡ₚ tasks example_store ∧
  earlier_due_first (Tasks_report example_store) ∧
  undated_last (Tasks_report example_store) ∧
  higher_priority_first (Tasks_report example_store).
Proof.
  split; [exact well_dated_example|].
  destruct (Tasks_report_spec example_store well_dated_example)
    as (Hperm & _ & Hdue & Hundated & Hprio).
  repeat split; assumption.
Defined.

(** ** Tasks.query *)

Lemma matches_spec keywords t :
  matches keywords t ↔
  ∃ keyword pre post, keyword ∈ keywords ∧
    chars (lower (name t)) = pre ++ chars (lower keyword) ++ post.
Proof.
  unfold matches. rewrite existsb_exists. split.
  - intros (kw & Hin & Hkw). apply find_in_spec in Hkw as (pre & post & Hkw).
    exists kw, pre, post. by rewrite <-list_elem_of_In in Hin.
  - intros (kw & pre & post & Hin & Hkw). exists kw.
    rewrite <-list_elem_of_In. split; [done|].
    apply find_in_spec. eauto.
Qed.

Lemma Tasks_query_elem_of self keywords t :
  t ∈ Tasks_query self keywords ↔
  t ∈ tasks self ∧ completed t = None ∧ matches keywords t.
Proof. unfold Tasks_query. rewrite !list_elem_of_filter. tauto. Qed.

(** C2.  Every task [Tasks.list] returns is incomplete and not deleted.
    [Tasks.query] returns, in the order of the store, the incomplete tasks
    whose lowercased name contains a lowercased keyword; whether a task is
    deleted plays no part, so a deleted, incomplete task with a matching
    name is returned by [Tasks.query] and not by [Tasks.list]. *)
Theorem list_query_asymmetry (self : Tasks) (keywords : list str) :
  (∀ t, t ∈ Tasks_list self → completed t = None ∧ deleted t = false) ∧
  (∀ t, (completed t ≠ None ∨ deleted t = true) → t ∉ Tasks_list self) ∧
  (∀ t, t ∈ Tasks_query self keywords ↔
     t ∈ tasks self ∧ completed t = None ∧
     ∃ keyword pre post, keyword ∈ keywords ∧
       chars (lower (name t)) = pre ++ chars (lower keyword) ++ post) ∧
  sublist (Tasks_query self keywords) (tasks self) ∧
  (∀ t keyword, t ∈ tasks self → deleted t = true → completed t = None →
     keyword ∈ keywords → str_in (lower keyword) (lower (name t)) = true →
     t ∈ Tasks_query self keywords ∧ t ∉ Tasks_list self).
Proof.
  assert (∀ t, t ∈ Tasks_list self → completed t = None ∧ deleted t = false)
    as Hlist by (intros t Ht; apply Tasks_list_elem_of in Ht; tauto).
  assert (∀ t, (completed t ≠ None ∨ deleted t = true) → t ∉ Tasks_list self)
    as Hnot.
  { intros t Ht Hin. apply Hlist in Hin as [Hc Hd]. rewrite Hd in Ht.
    by destruct Ht. }
  split; [exact Hlist|]. split; [exact Hnot|]. split; [|split].
  - intros t. rewrite Tasks_query_elem_of, matches_spec. tauto.
  - unfold Tasks_query. etrans; apply sublist_filter.
  - intros t keyword Hin Hdel Hc Hkw Hm. split.
    + apply Tasks_query_elem_of. split; [done|]. split; [done|].
      unfold matches. apply existsb_exists. exists keyword.
      by rewrite <-list_elem_of_In.
    + apply Hnot. by right.
Qed.

Example example_query :
  unique_id <$> Tasks_query example_store ["rent"; "DOG"] = [2; 3; 5].
Proof. vm_compute. reflexivity. Qed.

(** ** Persistence *)

Lemma Task_of_to_py t : Task_of_py (Task_to_py t) = Some t.
Proof. by destruct t as [c [f|] x n i p [u|]]. Qed.

Lemma tasks_of_to_py ts : tasks_of_py (tasks_to_py ts) = Some ts.
Proof. apply mapM_fmap_Some, Task_of_to_py. Qed.

Section Persistence.
Context `{Pickler}.

Lemma load_pickle_tasks self ts0 fs :
  load_tasks {| file_path := file_path self; tasks := ts0 |}
    (pickle_tasks self fs) = Some self.
Proof.
  unfold load_tasks, pickle_tasks. cbn [file_path].
  rewrite lookup_insert_eq, loads_dumps. cbn [mbind option_bind].
  rewrite tasks_of_to_py. by destruct self.
Qed.

Lemma Tasks_init_pickle_tasks self fs :
  file_path self = ".todo.pickle" → Tasks_init (pickle_tasks self fs) = Some self.
Proof. intros Hp. unfold Tasks_init. rewrite <-Hp. apply load_pickle_tasks. Qed.

Lemma load_tasks_file_path self fs self' :
  load_tasks self fs = Some self' → file_path self' = file_path self.
Proof.
  unfold load_tasks. destruct (fs !! file_path self) as [b|].
  - destruct (loads b ≫= tasks_of_py); [|done]. by intros [= <-].
  - by intros [= <-].
Qed.

Lemma Tasks_init_file_path fs self :
  Tasks_init fs = Some self → file_path self = ".todo.pickle".
Proof. apply load_tasks_file_path. Qed.

Lemma Tasks_init_empty : Tasks_init ∅ = Some {| file_path := ".todo.pickle"; tasks := [] |}.
Proof. unfold Tasks_init, load_tasks. by rewrite lookup_empty. Qed.

(** C7.  Saving a task list and loading it again, into the manager
    itself or into a new [Tasks()], gives the same tasks: the same fields
    in the same order.  The file is the one at [file_path]; what [pickle]
    writes into it is read back by the law of the pickler. *)
Theorem save_load_roundtrip (self : Tasks) (fs : files) :
  load_tasks self (pickle_tasks self fs) = Some self ∧
  load_tasks {| file_path := file_path self; tasks := [] |}
    (pickle_tasks self fs) = Some self ∧
  (file_path self = ".todo.pickle" →
   Tasks_init (pickle_tasks self fs) = Some self).
Proof.
  split; [|split].
  - destruct self as [p ts]. apply (load_pickle_tasks {| file_path := p; tasks := ts |}).
  - apply load_pickle_tasks.
  - apply Tasks_init_pickle_tasks.
Qed.

(** ** Tasks.delete *)

Lemma filter_all {A} (P : A → Prop) `{∀ x, Decision (P x)} (l : list A) :
  (∀ x, x ∈ l → P x) → filter P l = l.
Proof.
  induction l as [|x l IH]; intros Hl; [done|].
  rewrite filter_cons_True by (apply Hl; left).
  f_equal. apply IH. intros y Hy. apply Hl. by right.
Qed.

(** C5.  [Tasks.delete] with an id that no task of the store holds gives
    back the same manager, with the same tasks, and has written them to
    the file: loading the file gives these tasks.  It returns nothing, so
    it signals nothing; it cannot fail in the model. *)
Theorem Tasks_delete_unknown (self : Tasks) (uid : Z) (fs : files) :
  (∀ t, t ∈ tasks self → unique_id t ≠ uid) →
  Tasks_delete self uid fs = (self, pickle_tasks self fs) ∧
  tasks (Tasks_delete self uid fs).1 = tasks self ∧
  length (tasks (Tasks_delete self uid fs).1) = length (tasks self) ∧
  load_tasks self (Tasks_delete self uid fs).2 = Some self.
Proof.
  intros Hno.
  assert (Tasks_delete self uid fs = (self, pickle_tasks self fs)) as ->.
  { unfold Tasks_delete. rewrite filter_all by done. by destruct self. }
  cbn [fst snd]. repeat split; try done.
  destruct self as [p ts]. apply (load_pickle_tasks {| file_path := p; tasks := ts |}).
Qed.

(** ** Tasks.done *)

Lemma done_loop_None now uid ts :
  done_loop now uid ts = None ↔ ∀ t, t ∈ ts → unique_id t ≠ uid.
Proof.
  induction ts as [|t ts IH]; simpl.
  - split; [|done]. intros _ t Ht. by apply elem_of_nil in Ht.
  - destruct (Z.eqb_spec (unique_id t) uid) as [Heq|Hne].
    + split; [done|]. intros Hall. destruct (Hall t); [left|done].
    + rewrite fmap_None, IH. split.
      * intros Hall x [->|Hx]%elem_of_cons; auto.
      * intros Hall x Hx. apply Hall. by right.
Qed.

Lemma done_loop_Some now uid ts ts' :
  done_loop now uid ts = Some ts' →
  ∃ l1 t l2, ts = l1 ++ t :: l2 ∧ unique_id t = uid ∧
    (∀ x, x ∈ l1 → unique_id x ≠ uid) ∧
    ts' = l1 ++ mark_completed now t :: l2.
Proof.
  revert ts'. induction ts as [|t ts IH]; intros ts'; simpl; [done|].
  destruct (Z.eqb_spec (unique_id t) uid) as [Heq|Hne].
  - intros [= <-]. exists [], t, ts. repeat split; [done|].
    intros x Hx. by apply elem_of_nil in Hx.
  - intros Hs. apply fmap_Some in Hs as (k & Hk & ->).
    destruct (IH _ Hk) as (l1 & x & l2 & -> & Hx & Hl1 & ->).
    exists (t :: l1), x, l2. repeat split; [done|].
    intros y [->|Hy]%elem_of_cons; auto.
Qed.

(** C6.  [Tasks.done] returns [True] exactly when a task of the store has
    the id.  When it returns [False], neither the tasks nor the file
    change.  When it returns [True], the first task with the id, and no
    other, has [completed] set to the time of the call, the tasks are
    saved, and the completed task is not among the result of
    [Tasks.list]. *)
Theorem Tasks_done_spec (now : datetime) (self : Tasks) (uid : Z) (fs : files)
    (found : bool) (self' : Tasks) (fs' : files) :
  Tasks_done now self uid fs = (found, self', fs') →
  (found = true ↔ ∃ t, t ∈ tasks self ∧ unique_id t = uid) ∧
  (found = false → self' = self ∧ fs' = fs) ∧
  (found = true →
   ∃ l1 t l2, tasks self = l1 ++ t :: l2 ∧ unique_id t = uid ∧
     (∀ x, x ∈ l1 → unique_id x ≠ uid) ∧
     tasks self' = l1 ++ mark_completed now t :: l2 ∧
     completed (mark_completed now t) = Some now ∧
     (mark_completed now t ∉ Tasks_list self') ∧
     fs' = pickle_tasks self' fs).
Proof.
  unfold Tasks_done. destruct (done_loop now uid (tasks self)) as [ts|] eqn:E.
  - intros [= <- <- <-].
    apply done_loop_Some in E as (l1 & t & l2 & Hts & Hid & Hl1 & ->).
    split; [|split; [done|]].
    + split; [|done]. intros _. exists t. split; [|done].
      rewrite Hts. set_solver.
    + intros _. exists l1, t, l2. repeat split; try done.
      intros Hin. by apply Tasks_list_elem_of in Hin as (_ & Hc & _).
  - intros [= <- <- <-]. split; [|split; [done|done]].
    split; [done|]. intros (t & Ht & Hid).
    by eapply done_loop_None in E.
Qed.
End Persistence.

Lemma Tasks_delete_unknown_witness :
  (∀ t, t ∈ tasks example_store → unique_id t ≠ 9) ∧
  Tasks_delete (H := memory_pickler) example_store 9 ∅
  = (example_store, pickle_tasks example_store ∅).
Proof.
  assert (∀ t, t ∈ tasks example_store → unique_id t ≠ 9) as Hno.
  { intros t Ht. cbn [tasks example_store] in Ht. unfold example_tasks in Ht.
    repeat (apply elem_of_cons in Ht as [->|Ht]); [done..|].
    by apply elem_of_nil in Ht. }
  split; [exact Hno|].
  exact (proj1 (Tasks_delete_unknown (H := memory_pickler) example_store 9 ∅ Hno)).
Defined.

Lemma Tasks_done_spec_witness :
  Tasks_done (H := memory_pickler) example_now example_store 2 ∅
  = (true, (Tasks_done (H := memory_pickler) example_now example_store 2 ∅).1.2,
     (Tasks_done (H := memory_pickler) example_now example_store 2 ∅).2) ∧
  (true = true ↔ ∃ t, t ∈ tasks example_store ∧ unique_id t = 2).
Proof.
  split; [reflexivity|].
  exact (proj1 (Tasks_done_spec (H := memory_pickler) example_now example_store 2 ∅
                  true _ _ eq_refl)).
Defined.

Lemma save_load_roundtrip_witness :
  load_tasks (H := memory_pickler) example_store
    (pickle_tasks example_store ∅) = Some example_store.
Proof.
  exact (proj1 (save_load_roundtrip (H := memory_pickler) example_store ∅)).
Defined.

(** ** handle_command: the add and report commands *)

(** The due date and the warning the add command computes from [--due]. *)
Definition parsed_due (due : option str) : option datetime * list message :=
  match due with
  | Some due =>
      if str_truthy due then
        match strptime due with
        | Some d => (Some d, [])
        | None => (None, [WarningInvalidDueDate])
        end
      else (None, [])
  | None => (None, [])
  end.

(** The task the add command creates in a store of [n] tasks. *)
Definition added_task (now : datetime) (args : Args) (nm : str) (n : nat) : Task :=
  Task_init now (Z.of_nat n + 1) nm (int_or (args_priority args) 1)
    (parsed_due (args_due args)).1.

Definition tasks_append (self : Tasks) (task : Task) : Tasks :=
  {| file_path := file_path self; tasks := tasks self ++ [task] |}.

(** The claim of the specification on due dates that fail to parse. *)
Definition invalid_due_claim : Prop :=
  ∀ (P : Pickler) now args fs tasks_manager nm due,
    Tasks_init fs = Some tasks_manager →
    args_add args = Some nm → str_truthy nm = true → isdigit nm = false →
    args_due args = Some due → strptime due = None →
    ∃ fs' out task,
      handle_command now args fs = Some (fs', out) ∧
      Tasks_init fs' = Some (tasks_append tasks_manager task) ∧
      due_date task = None ∧
      WarningInvalidDueDate ∈ out.

Section Commands.
Context `{Pickler}.

Lemma handle_command_add now args fs tasks_manager nm :
  Tasks_init fs = Some tasks_manager →
  args_add args = Some nm → str_truthy nm = true → isdigit nm = false →
  handle_command now args fs =
  Some (pickle_tasks
          (tasks_append tasks_manager
             (added_task now args nm (length (tasks tasks_manager)))) fs,
        (parsed_due (args_due args)).2
        ++ [CreatedTask (Z.of_nat (length (tasks tasks_manager)) + 1)]).
Proof.
  intros Hinit Hadd Hnm Hdigit. unfold handle_command.
  rewrite Hinit. cbn [mbind option_bind]. rewrite Hadd, Hnm, Hdigit.
  cbn [negb orb]. unfold added_task, parsed_due, Tasks_add, tasks_append.
  destruct (args_due args) as [due|]; [|done].
  destruct (str_truthy due); [|done].
  by destruct (strptime due).
Qed.

Lemma handle_command_add_rejected now args fs tasks_manager nm :
  Tasks_init fs = Some tasks_manager →
  args_add args = Some nm → negb (str_truthy nm) || isdigit nm = true →
  handle_command now args fs = Some (fs, [ErrorCreatingTask]).
Proof.
  intros Hinit Hadd Hnm. unfold handle_command.
  rewrite Hinit. cbn [mbind option_bind]. by rewrite Hadd, Hnm.
Qed.

(** C4.  An add command with a valid name creates one task, whose id is
    the number of tasks the store held when the command started, plus 1;
    the task is appended to the store and saved, and its id is printed. *)
Theorem add_assigns_count_plus_one now args fs tasks_manager nm :
  Tasks_init fs = Some tasks_manager →
  args_add args = Some nm → str_truthy nm = true → isdigit nm = false →
  ∃ fs' out task,
    handle_command now args fs = Some (fs', out) ∧
    Tasks_init fs' = Some (tasks_append tasks_manager task) ∧
    unique_id task = Z.of_nat (length (tasks tasks_manager)) + 1 ∧
    name task = nm ∧
    created_ids out = [unique_id task].
Proof.
  intros Hinit Hadd Hnm Hdigit.
  eexists _, _, (added_task now args nm (length (tasks tasks_manager))).
  split; [by apply handle_command_add|].
  split; [|split; [done|split; [done|]]].
  - apply Tasks_init_pickle_tasks. cbn [tasks_append file_path].
    by eapply Tasks_init_file_path.
  - unfold parsed_due. destruct (args_due args) as [due|]; [|done].
    destruct (str_truthy due); [|done]. by destruct (strptime due).
Qed.

(** C9 (amended).  An add command with a valid name and a due date
    string that [strptime] rejects creates the task without a due date,
    appends it to the store, saves it and prints its id.  When the string
    is not empty the warning is printed first; when it is empty the
    handler does not parse it and prints no warning. *)
Theorem invalid_due_date_warns now args fs tasks_manager nm due :
  Tasks_init fs = Some tasks_manager →
  args_add args = Some nm → str_truthy nm = true → isdigit nm = false →
  args_due args = Some due → strptime due = None →
  ∃ fs' out task,
    handle_command now args fs = Some (fs', out) ∧
    Tasks_init fs' = Some (tasks_append tasks_manager task) ∧
    task = Task_init now (Z.of_nat (length (tasks tasks_manager)) + 1) nm
             (int_or (args_priority args) 1) None ∧
    due_date task = None ∧
    (due ≠ "" → out = [WarningInvalidDueDate; CreatedTask (unique_id task)]) ∧
    (due = "" → out = [CreatedTask (unique_id task)]).
Proof.
  intros Hinit Hadd Hnm Hdigit Hdue Hparse.
  assert ((parsed_due (args_due args)).1 = None) as Hp1.
  { unfold parsed_due. rewrite Hdue, Hparse. by destruct (str_truthy due). }
  eexists _, _, (added_task now args nm (length (tasks tasks_manager))).
  split; [by apply handle_command_add|].
  split; [|split; [|split; [|split]]].
  - apply Tasks_init_pickle_tasks. cbn [tasks_append file_path].
    by eapply Tasks_init_file_path.
  - unfold added_task. by rewrite Hp1.
  - unfold added_task. cbn [due_date Task_init]. exact Hp1.
  - intros Hne. unfold parsed_due. rewrite Hdue, Hparse. by destruct due.
  - intros ->. unfold parsed_due. by rewrite Hdue.
Qed.

Lemma handle_command_report now args fs tasks_manager :
  Tasks_init fs = Some tasks_manager →
  args_add args = None → args_list args = false →
  list_truthy (args_query args) = false →
  int_truthy (args_done args) = false →
  int_truthy (args_delete args) = false →
  args_report args = true →
  handle_command now args fs
  = Some (fs, [PrintTasks (tasks tasks_manager) true true true]).
Proof.
  intros Hinit Hadd Hlist Hquery Hdone Hdelete Hreport. unfold handle_command.
  rewrite Hinit. cbn [mbind option_bind].
  by rewrite Hadd, Hlist, Hquery, Hdone, Hdelete, Hreport.
Qed.

(** C10.  When the report command is the one [handle_command] runs, it
    prints the tasks of the store as they are stored, in insertion order,
    with the three extra columns; [Tasks.report] is not called, and there
    is a store on which its sorted order differs from what is printed. *)
Theorem report_prints_store_order :
  (∀ now args fs tasks_manager,
     Tasks_init fs = Some tasks_manager →
     args_add args = None → args_list args = false →
     list_truthy (args_query args) = false →
     int_truthy (args_done args) = false →
     int_truthy (args_delete args) = false →
     args_report args = true →
     handle_command now args fs
     = Some (fs, [PrintTasks (tasks tasks_manager) true true true])) ∧
  (∃ now fs tasks_manager,
     Tasks_init fs = Some tasks_manager ∧
     handle_command now report_args fs
     = Some (fs, [PrintTasks (tasks tasks_manager) true true true]) ∧
     tasks tasks_manager ≠ Tasks_report tasks_manager).
Proof.
  split; [apply handle_command_report|].
  exists 0, (pickle_tasks example_store ∅), example_store.
  assert (Tasks_init (pickle_tasks example_store ∅) = Some example_store)
    as Hinit by by apply Tasks_init_pickle_tasks.
  split; [done|]. split; [by apply handle_command_report|].
  intros Heq. apply (f_equal (fmap unique_id)) in Heq.
  by vm_compute in Heq.
Qed.
End Commands.

Lemma add_assigns_count_plus_one_witness :
  Tasks_init (H := memory_pickler) ∅
  = Some {| file_path := ".todo.pickle"; tasks := [] |} ∧
  str_truthy "walk the dog" = true ∧ isdigit "walk the dog" = false ∧
  ∃ fs' out task,
    handle_command (H := memory_pickler) example_now
      (add_args "walk the dog" None None) ∅ = Some (fs', out) ∧
    Tasks_init fs'
    = Some (tasks_append {| file_path := ".todo.pickle"; tasks := [] |} task) ∧
    unique_id task = 1 ∧
    name task = "walk the dog" ∧
    created_ids out = [unique_id task].
Proof.
  split; [apply Tasks_init_empty|]. split; [reflexivity|]. split; [reflexivity|].
  exact (add_assigns_count_plus_one (H := memory_pickler) example_now
           (add_args "walk the dog" None None) ∅ _ "walk the dog"
           Tasks_init_empty eq_refl eq_refl eq_refl).
Defined.

Lemma invalid_due_date_warns_witness :
  (strptime "13/45/2025" = None ∧
   ∃ fs' out task,
     handle_command (H := memory_pickler) example_now
       (add_args "walk the dog" (Some "13/45/2025") None) ∅ = Some (fs', out) ∧
     Tasks_init fs'
     = Some (tasks_append {| file_path := ".todo.pickle"; tasks := [] |} task) ∧
     task = Task_init example_now 1 "walk the dog" 1 None ∧
     due_date task = None ∧
     out = [WarningInvalidDueDate; CreatedTask (unique_id task)]) ∧
  (strptime "" = None ∧
   ∃ fs' out task,
     handle_command (H := memory_pickler) example_now
       (add_args "walk the dog" (Some "") None) ∅ = Some (fs', out) ∧
     Tasks_init fs'
     = Some (tasks_append {| file_path := ".todo.pickle"; tasks := [] |} task) ∧
     task = Task_init example_now 1 "walk the dog" 1 None ∧
     due_date task = None ∧
     out = [CreatedTask (unique_id task)]).
Proof.
  split; (split; [reflexivity|]).
  - destruct (invalid_due_date_warns (H := memory_pickler) example_now
                (add_args "walk the dog" (Some "13/45/2025") None) ∅ _
                "walk the dog" "13/45/2025"
                Tasks_init_empty eq_refl eq_refl eq_refl eq_refl eq_refl)
      as (fs' & out & task & Hrun & Hinit & Htask & Hdue & Hwarn & _).
    exists fs', out, task. repeat split; try done. by apply Hwarn.
  - destruct (invalid_due_date_warns (H := memory_pickler) example_now
                (add_args "walk the dog" (Some "") None) ∅ _
                "walk the dog" ""
                Tasks_init_empty eq_refl eq_refl eq_refl eq_refl eq_refl)
      as (fs' & out & task & Hrun & Hinit & Htask & Hdue & _ & Hquiet).
    exists fs', out, task. repeat split; try done. by apply Hquiet.
Defined.

(** C9 (as stated, refuted).  The empty string does not parse as a
    date, and [--due ""] adds the task without any warning: the handler
    tests [if args.due] before it calls [strptime]. *)
Lemma invalid_due_claim_fails : ¬ invalid_due_claim.
Proof.
  intros Hc.
  destruct (Hc memory_pickler example_now
              (add_args "walk the dog" (Some "") None) ∅ _ "walk the dog" ""
              Tasks_init_empty eq_refl eq_refl eq_refl eq_refl eq_refl)
    as (fs' & out & task & Hrun & _ & _ & Hin).
  rewrite (handle_command_add _ _ _ _ "walk the dog" Tasks_init_empty)
    in Hrun by reflexivity.
  injection Hrun as _ <-. cbn in Hin.
  apply list_elem_of_singleton in Hin. discriminate Hin.
Qed.

(** ** Sessions: ids over the lifetime of a store *)

(** The claim of the specification: whatever the operations, the ids of
    the tasks created are pairwise distinct. *)
Definition ids_unique_claim : Prop :=
  ∀ (P : Pickler) ops fs out,
    run ops ∅ = Some (fs, out) → NoDup (created_ids out).

(** A session that deletes task 1 of two and then adds a third task. *)
Definition reuse_session : list operation :=
  [ Add example_now "file taxes" None None;
    Add example_now "pay rent" None None;
    Delete 1;
    Add example_now "walk the dog" None None ].

Lemma done_loop_ids now uid ts ts' :
  done_loop now uid ts = Some ts' → unique_id <$> ts' = unique_id <$> ts.
Proof.
  intros (l1 & t & l2 & -> & _ & _ & ->)%done_loop_Some.
  by rewrite !fmap_app, !fmap_cons.
Qed.

Lemma get_task_by_id_from_lookup i0 ts uid i task :
  get_task_by_id_from i0 ts uid = Some (i, task) →
  ∃ j, i = (i0 + j)%nat ∧ ts !! j = Some task.
Proof.
  revert i0. induction ts as [|t ts IH]; intros i0; simpl; [done|].
  destruct (unique_id t =? uid).
  - intros [= <- <-]. exists 0%nat. split; [lia|done].
  - intros (j & -> & Hj)%IH. exists (S j). split; [lia|done].
Qed.

Lemma mark_deleted_ids (ts : list Task) i task :
  ts !! i = Some task →
  unique_id <$> <[i := mark_deleted task]> ts = unique_id <$> ts.
Proof.
  intros Hi. rewrite list_fmap_insert. apply list_insert_id.
  by rewrite list_lookup_fmap, Hi.
Qed.

Section Sessions.
Context `{Pickler}.

(** The file holds the tasks [ts]. *)
Definition stored (fs : files) (ts : list Task) : Prop :=
  Tasks_init fs = Some {| file_path := ".todo.pickle"; tasks := ts |}.

Lemma stored_pickle_tasks ts fs :
  stored (pickle_tasks {| file_path := ".todo.pickle"; tasks := ts |} fs) ts.
Proof. by apply Tasks_init_pickle_tasks. Qed.

(** An operation other than the hard delete succeeds, keeps the ids of
    the store and creates at most one task, with the next id. *)
Lemma step_ids op fs ts :
  stored fs ts → is_hard_delete op = false →
  ∃ fs' out ts',
    step op fs = Some (fs', out) ∧ stored fs' ts' ∧
    unique_id <$> ts' = (unique_id <$> ts) ++ created_ids out ∧
    (created_ids out = [] ∨ created_ids out = [Z.of_nat (length ts) + 1]).
Proof.
  intros Hst Hop. destruct op as [now nm due prio|uid|now uid|uid]; [|done|..].
  - (* --add *)
    cbn [step].
    destruct (negb (str_truthy nm) || isdigit nm) eqn:Hnm.
    + exists fs, [ErrorCreatingTask], ts.
      rewrite (handle_command_add_rejected _ _ _ _ nm Hst) by done.
      rewrite app_nil_r. auto.
    + apply orb_false_iff in Hnm as [Hnm%negb_false_iff Hdigit].
      rewrite (handle_command_add _ _ _ _ nm Hst) by done.
      cbn [tasks tasks_append file_path].
      assert (created_ids ((parsed_due (args_due (add_args nm due prio))).2
                ++ [CreatedTask (Z.of_nat (length ts) + 1)])
              = [Z.of_nat (length ts) + 1]) as Hids.
      { cbn [add_args args_due]. unfold parsed_due.
        destruct due as [due|]; [|done].
        destruct (str_truthy due); [|done]. by destruct (strptime due). }
      eexists _, _, _. split; [done|]. split; [apply stored_pickle_tasks|].
      rewrite Hids, fmap_app. split; [done|]. by right.
  - (* --done *)
    cbn [step]. unfold handle_command. rewrite Hst. cbn.
    destruct (uid =? 0); cbn.
    { exists fs, [ErrorNoCommand], ts. rewrite app_nil_r. auto. }
    unfold Tasks_done. cbn [tasks file_path].
    destruct (done_loop now uid ts) as [ts'|] eqn:E.
    + eexists _, [CompletedTask uid], ts'.
      split; [done|]. split; [apply stored_pickle_tasks|].
      rewrite app_nil_r. split; [by eapply done_loop_ids|]. by left.
    + exists fs, [ErrorNotFound uid], ts. rewrite app_nil_r. auto.
  - (* --delete *)
    cbn [step]. unfold handle_command. rewrite Hst. cbn.
    destruct (uid =? 0); cbn.
    { exists fs, [ErrorNoCommand], ts. rewrite app_nil_r. auto. }
    unfold get_task_by_id. cbn [tasks file_path].
    destruct (get_task_by_id_from 0 ts uid) as [[i task]|] eqn:E.
    + apply get_task_by_id_from_lookup in E as (j & -> & Hj).
      eexists _, [DeletedTask uid], _.
      split; [done|]. split; [apply stored_pickle_tasks|].
      rewrite app_nil_r. split; [by apply mark_deleted_ids|]. by left.
    + exists fs, [ErrorNotFound uid], ts. rewrite app_nil_r. auto.
Qed.

Lemma created_ids_app out1 out2 :
  created_ids (out1 ++ out2) = created_ids out1 ++ created_ids out2.
Proof. apply omap_app. Qed.

Lemma run_ids ops fs ts :
  stored fs ts → Forall (λ op, is_hard_delete op = false) ops →
  ∃ fs' out ts',
    run ops fs = Some (fs', out) ∧ stored fs' ts' ∧
    unique_id <$> ts' = (unique_id <$> ts) ++ created_ids out ∧
    created_ids out
    = seqZ (Z.of_nat (length ts) + 1) (Z.of_nat (length (created_ids out))).
Proof.
  intros Hst Hops. revert fs ts Hst.
  induction Hops as [|op ops Hop Hops IH]; intros fs ts Hst.
  - exists fs, [], ts. rewrite app_nil_r. by repeat split.
  - destruct (step_ids op fs ts Hst Hop) as (fs1 & out1 & ts1 & Hstep & Hst1 & Hids1 & Hnew).
    destruct (IH fs1 ts1 Hst1) as (fs2 & out2 & ts2 & Hrun & Hst2 & Hids2 & Hseq).
    exists fs2, (out1 ++ out2), ts2. cbn [run]. rewrite Hstep. cbn. rewrite Hrun. cbn.
    split; [done|]. split; [done|].
    rewrite created_ids_app. split; [by rewrite Hids2, Hids1, app_assoc|].
    assert (length ts1 = (length ts + length (created_ids out1))%nat) as Hlen.
    { apply (f_equal length) in Hids1. by rewrite length_app, !length_fmap in Hids1. }
    rewrite Hlen in Hseq. rewrite Hseq at 1.
    destruct Hnew as [->| ->]; cbn [length app] in *.
    + by rewrite Nat.add_0_r.
    + rewrite (seqZ_cons _ (Z.of_nat (S _))) by lia. f_equal. f_equal; lia.
Qed.
End Sessions.

(** C3 (amended).  A session of add, done and soft-delete commands on a
    new store, without any call of [Tasks.delete], runs to its end; the
    ids of the tasks it created are pairwise distinct (they are 1, 2, ...
    in order of creation), and they are the ids of the tasks in the store,
    which holds every task ever created. *)
Theorem ids_unique_without_hard_delete `{Pickler} (ops : list operation) :
  Forall (λ op, is_hard_delete op = false) ops →
  ∃ fs out ts,
    run ops ∅ = Some (fs, out) ∧
    Tasks_init fs = Some {| file_path := ".todo.pickle"; tasks := ts |} ∧
    unique_id <$> ts = created_ids out ∧
    created_ids out = seqZ 1 (Z.of_nat (length (created_ids out))) ∧
    NoDup (created_ids out).
Proof.
  intros Hops.
  destruct (run_ids ops ∅ [] Tasks_init_empty Hops)
    as (fs & out & ts & Hrun & Hst & Hids & Hseq).
  exists fs, out, ts. repeat split; try done.
  rewrite Hseq. apply NoDup_seqZ.
Qed.

Lemma ids_unique_without_hard_delete_witness :
  Forall (λ op, is_hard_delete op = false)
    [ Add example_now "file taxes" None None;
      MarkDeleted 1;
      Add example_now "pay rent" (Some "02/01/2025") (Some 3);
      MarkCompleted example_now 2 ] ∧
  ∃ fs out ts,
    run (H := memory_pickler)
      [ Add example_now "file taxes" None None;
        MarkDeleted 1;
        Add example_now "pay rent" (Some "02/01/2025") (Some 3);
        MarkCompleted example_now 2 ] ∅ = Some (fs, out) ∧
    Tasks_init fs = Some {| file_path := ".todo.pickle"; tasks := ts |} ∧
    unique_id <$> ts = created_ids out ∧
    created_ids out = seqZ 1 (Z.of_nat (length (created_ids out))) ∧
    NoDup (created_ids out).
Proof.
  assert (Forall (λ op, is_hard_delete op = false)
            [ Add example_now "file taxes" None None;
              MarkDeleted 1;
              Add example_now "pay rent" (Some "02/01/2025") (Some 3);
              MarkCompleted example_now 2 ]) as Hops
    by (repeat constructor).
  split; [exact Hops|].
  exact (ids_unique_without_hard_delete (H := memory_pickler) _ Hops).
Defined.

Example reuse_session_ids :
  created_ids <$> (snd <$> run (H := memory_pickler) reuse_session ∅)
  = Some [1; 2; 2].
Proof. vm_compute. reflexivity. Qed.

Example reuse_session_store :
  (λ r, fmap (M := list) unique_id <$> (tasks <$> Tasks_init (H := memory_pickler) r.1))
    <$> run (H := memory_pickler) reuse_session ∅
  = Some (Some [2; 2]).
Proof. vm_compute. reflexivity. Qed.

(** C3 (as stated, refuted).  After two adds, [Tasks.delete] of task 1
    leaves one task, so the next add assigns the id 2 again: the session
    creates the ids 1, 2, 2 and the store ends with two tasks of id 2. *)
Lemma ids_unique_claim_fails : ¬ ids_unique_claim.
Proof.
  intros Hc. pose proof reuse_session_ids as Hids.
  destruct (run (H := memory_pickler) reuse_session ∅) as [[fs out]|] eqn:Hrun;
    [|discriminate Hids].
  apply Hc in Hrun. injection Hids as Hids. cbn [snd] in Hids.
  rewrite Hids in Hrun. apply NoDup_cons in Hrun as [_ Hrun].
  apply NoDup_cons in Hrun as [Hrun _]. apply Hrun. by left.
Qed.

(** * Further properties of the store *)

(** ** Tasks.get_task_by_id *)

Lemma get_task_by_id_from_Some i0 ts uid i task :
  get_task_by_id_from i0 ts uid = Some (i, task) →
  ∃ j, i = (i0 + j)%nat ∧ ts !! j = Some task ∧ unique_id task = uid ∧
    ∀ k t, (k < j)%nat → ts !! k = Some t → unique_id t ≠ uid.
Proof.
  revert i0. induction ts as [|t ts IH]; intros i0; simpl; [done|].
  destruct (Z.eqb_spec (unique_id t) uid) as [Heq|Hne].
  - intros [= <- <-]. exists 0%nat. repeat split; [lia|done|]. intros; lia.
  - intros (j & -> & Hj & Hid & Hfirst)%IH. exists (S j).
    repeat split; [lia|done..|].
    intros [|k] x Hk Hx; simpl in Hx; [by injection Hx as <-|].
    apply (Hfirst k); [lia|done].
Qed.

Lemma get_task_by_id_from_None i0 ts uid :
  get_task_by_id_from i0 ts uid = None ↔ ∀ t, t ∈ ts → unique_id t ≠ uid.
Proof.
  revert i0. induction ts as [|t ts IH]; intros i0; simpl.
  - split; [|done]. intros _ t Ht. by apply elem_of_nil in Ht.
  - destruct (Z.eqb_spec (unique_id t) uid) as [Heq|Hne].
    + split; [done|]. intros Hall. destruct (Hall t); [left|done].
    + rewrite IH. split.
      * intros Hall x [->|Hx]%elem_of_cons; auto.
      * intros Hall x Hx. apply Hall. by right.
Qed.

Lemma get_task_by_id_from_app i0 l1 l2 uid :
  get_task_by_id_from i0 (l1 ++ l2) uid =
  match get_task_by_id_from i0 l1 uid with
  | Some r => Some r
  | None => get_task_by_id_from (i0 + length l1) l2 uid
  end.
Proof.
  revert i0. induction l1 as [|t l1 IH]; intros i0; simpl.
  - by rewrite Nat.add_0_r.
  - destruct (unique_id t =? uid); [done|].
    rewrite IH. by rewrite Nat.add_succ_comm.
Qed.

(** X1.  [get_task_by_id] returns the first task of the store with the
    id, as a reference into the list, and [None] exactly when no task has
    the id. *)
Theorem get_task_by_id_spec (self : Tasks) (uid : Z) :
  match get_task_by_id self uid with
  | Some (i, task) =>
      tasks self !! i = Some task ∧ unique_id task = uid ∧
      ∀ k t, (k < i)%nat → tasks self !! k = Some t → unique_id t ≠ uid
  | None => ∀ t, t ∈ tasks self → unique_id t ≠ uid
  end.
Proof.
  unfold get_task_by_id.
  destruct (get_task_by_id_from 0 (tasks self) uid) as [[i task]|] eqn:E.
  - apply get_task_by_id_from_Some in E as (j & -> & Hj & Hid & Hfirst).
    done.
  - by rewrite get_task_by_id_from_None in E.
Qed.

(** ** Tasks.add and Tasks.delete *)

Section AddDelete.
Context `{Pickler}.

Lemma load_tasks_pickle_tasks self other fs :
  file_path self = file_path other →
  load_tasks self (pickle_tasks other fs) = Some other.
Proof.
  intros Hp. destruct self as [p ts]. cbn [file_path] in Hp. subst p.
  apply load_pickle_tasks.
Qed.

(** X2.  [Tasks.add] puts the task at the end of the store and saves the
    store: loading the file gives the new list.  A later lookup of the
    id of the new task finds an older task with that id if there is one,
    and the new task, at the last position, otherwise. *)
Theorem Tasks_add_spec (self : Tasks) (task : Task) (fs : files) :
  tasks (Tasks_add self task fs).1 = tasks self ++ [task] ∧
  load_tasks self (Tasks_add self task fs).2 = Some (Tasks_add self task fs).1 ∧
  get_task_by_id (Tasks_add self task fs).1 (unique_id task) =
    match get_task_by_id self (unique_id task) with
    | Some r => Some r
    | None => Some (length (tasks self), task)
    end.
Proof.
  unfold Tasks_add. cbn [fst snd tasks]. split; [done|]. split.
  - by apply load_tasks_pickle_tasks.
  - unfold get_task_by_id. cbn [tasks]. rewrite get_task_by_id_from_app.
    destruct (get_task_by_id_from 0 (tasks self) (unique_id task)); [done|].
    simpl. by rewrite Z.eqb_refl.
Qed.

(** X3.  [Tasks.delete] removes every task that has the id, keeps the
    other tasks in their order, and saves the result; afterwards no task
    has the id, and deleting the same id again changes nothing. *)
Theorem Tasks_delete_spec (self : Tasks) (uid : Z) (fs : files) :
  (∀ t, t ∈ tasks (Tasks_delete self uid fs).1 ↔
        t ∈ tasks self ∧ unique_id t ≠ uid) ∧
  sublist (tasks (Tasks_delete self uid fs).1) (tasks self) ∧
  get_task_by_id (Tasks_delete self uid fs).1 uid = None ∧
  load_tasks self (Tasks_delete self uid fs).2 = Some (Tasks_delete self uid fs).1 ∧
  Tasks_delete (Tasks_delete self uid fs).1 uid (Tasks_delete self uid fs).2
  = Tasks_delete self uid fs.
Proof.
  unfold Tasks_delete. cbn [fst snd tasks file_path].
  split; [|split; [|split; [|split]]].
  - intros t. rewrite list_elem_of_filter. tauto.
  - apply sublist_filter.
  - apply get_task_by_id_from_None. intros t Ht.
    by apply list_elem_of_filter in Ht as [Hne _].
  - by apply load_tasks_pickle_tasks.
  - rewrite (filter_all _ (filter _ _)).
    + unfold pickle_tasks. cbn [file_path tasks]. by rewrite insert_insert_eq.
    + intros t Ht. by apply list_elem_of_filter in Ht as [Hne _].
Qed.
End AddDelete.

(** ** handle_command: the other commands *)

Section OtherCommands.
Context `{Pickler}.

(** X4.  With [--add], an empty name or a name made of digits only is
    refused whatever the other options are: the error is printed, no task
    is created and the file is left as it was. *)
Theorem add_rejects_empty_and_digits now args fs tasks_manager nm :
  Tasks_init fs = Some tasks_manager →
  args_add args = Some nm →
  nm = "" ∨ isdigit nm = true →
  handle_command now args fs = Some (fs, [ErrorCreatingTask]).
Proof.
  intros Hinit Hadd Hnm.
  apply (handle_command_add_rejected now args fs tasks_manager nm); [done..|].
  destruct Hnm as [->| ->]; [done|]. apply orb_true_r.
Qed.

(** X5.  The list and query commands print a table without the extra
    columns and do not write the file: [--list] prints the result of
    [Tasks.list] and wins over every other option but [--add]; [--query]
    with at least one keyword prints the result of [Tasks.query] and wins
    over [--done], [--delete] and [--report]. *)
Theorem list_and_query_commands now args fs tasks_manager :
  Tasks_init fs = Some tasks_manager →
  args_add args = None →
  (args_list args = true →
   handle_command now args fs
   = Some (fs, [PrintTasks (Tasks_list tasks_manager) false false false])) ∧
  (args_list args = false →
   ∀ keyword keywords, args_query args = Some (keyword :: keywords) →
   handle_command now args fs
   = Some (fs, [PrintTasks (Tasks_query tasks_manager (keyword :: keywords))
                  false false false])).
Proof.
  intros Hinit Hadd. unfold handle_command.
  rewrite Hinit. cbn [mbind option_bind]. rewrite Hadd. split.
  - by intros ->.
  - by intros -> keyword keywords ->.
Qed.

(** X6.  The done command prints "Completed task" when a task of the
    store has the id and the not-found error otherwise; it leaves the file
    holding what [Tasks.done] made of the store, which is the store
    itself when the id is unknown. *)
Theorem done_command now args fs tasks_manager uid :
  Tasks_init fs = Some tasks_manager →
  args_add args = None → args_list args = false →
  list_truthy (args_query args) = false →
  args_done args = Some uid → uid ≠ 0 →
  ∃ fs' out tasks_manager',
    handle_command now args fs = Some (fs', out) ∧
    Tasks_init fs' = Some tasks_manager' ∧
    length (tasks tasks_manager') = length (tasks tasks_manager) ∧
    ((∃ t, t ∈ tasks tasks_manager ∧ unique_id t = uid) →
     out = [CompletedTask uid] ∧
     ∃ t, t ∈ tasks tasks_manager' ∧ unique_id t = uid ∧ completed t = Some now) ∧
    ((∀ t, t ∈ tasks tasks_manager → unique_id t ≠ uid) →
     out = [ErrorNotFound uid] ∧ fs' = fs ∧ tasks_manager' = tasks_manager).
Proof.
  intros Hinit Hadd Hlist Hquery Hdone Hne. unfold handle_command.
  rewrite Hinit. cbn [mbind option_bind].
  rewrite Hadd, Hlist, Hquery, Hdone. cbn [int_truthy default from_option id].
  apply Z.eqb_neq in Hne as ->. cbn [negb]. unfold Tasks_done.
  destruct (done_loop now uid (tasks tasks_manager)) as [ts|] eqn:E.
  - pose proof E as (l1 & t & l2 & Hts & Hid & Hl1 & ->)%done_loop_Some.
    eexists _, _, _. split; [done|]. split.
    { apply Tasks_init_pickle_tasks. cbn [file_path].
      by eapply Tasks_init_file_path. }
    cbn [tasks]. split; [by rewrite Hts, !length_app|]. split.
    + intros _. split; [done|]. exists (mark_completed now t).
      split; [set_solver|done].
    + intros Hno. destruct (Hno t); [|done]. rewrite Hts. set_solver.
  - eexists _, _, _. split; [done|]. split; [done|]. split; [done|]. split.
    + intros (t & Ht & Hid). by eapply done_loop_None in E.
    + done.
Qed.

(** X7.  The delete command is a soft delete.  When a task has the id,
    the first such task gets [deleted = True] and keeps its other fields,
    every other task and the number of tasks stay as they were, the store
    is saved and "Deleted task" is printed; the task is then left out by
    [Tasks.list] and still part of [Tasks.report].  When no task has the
    id the not-found error is printed and the file is left as it was. *)
Theorem delete_command now args fs tasks_manager uid :
  Tasks_init fs = Some tasks_manager →
  args_add args = None → args_list args = false →
  list_truthy (args_query args) = false →
  int_truthy (args_done args) = false →
  args_delete args = Some uid → uid ≠ 0 →
  match get_task_by_id tasks_manager uid with
  | Some (i, task) =>
      ∃ fs' tasks_manager',
        handle_command now args fs = Some (fs', [DeletedTask uid]) ∧
        Tasks_init fs' = Some tasks_manager' ∧
        tasks tasks_manager' = <[i := mark_deleted task]> (tasks tasks_manager) ∧
        tasks tasks_manager' !! i = Some (mark_deleted task) ∧
        (∀ j, j ≠ i → tasks tasks_manager' !! j = tasks tasks_manager !! j) ∧
        length (tasks tasks_manager') = length (tasks tasks_manager) ∧
        (mark_deleted task ∉ Tasks_list tasks_manager') ∧
        mark_deleted task ∈ Tasks_report tasks_manager'
  | None => handle_command now args fs = Some (fs, [ErrorNotFound uid])
  end.
Proof.
  intros Hinit Hadd Hlist Hquery Hdone Hdelete Hne. unfold handle_command.
  rewrite Hinit. cbn [mbind option_bind].
  rewrite Hadd, Hlist, Hquery, Hdone, Hdelete.
  cbn [int_truthy default from_option id].
  apply Z.eqb_neq in Hne as ->. cbn [negb].
  unfold get_task_by_id.
  destruct (get_task_by_id_from 0 (tasks tasks_manager) uid)
    as [[i task]|] eqn:E; [|done].
  apply get_task_by_id_from_Some in E as (j & -> & Hi & Hid & _).
  cbn [Nat.add].
  assert (j < length (tasks tasks_manager))%nat as Hlt by by eapply lookup_lt_Some.
  eexists _, _. split; [done|]. split.
  { apply Tasks_init_pickle_tasks. cbn [file_path].
    by eapply Tasks_init_file_path. }
  cbn [tasks]. split; [done|]. split; [by apply list_lookup_insert_eq|].
  split; [by intros k Hk; apply list_lookup_insert_ne|].
  split; [apply length_insert|]. split.
  - intros Hin. by apply Tasks_list_elem_of in Hin as (_ & _ & Hd).
  - unfold Tasks_report. rewrite sorted_perm. cbn [tasks].
    apply list_elem_of_lookup. exists j. by apply list_lookup_insert_eq.
Qed.

(** X8.  An id of 0 is no id: [--done 0] and [--delete 0] select no
    command.  When nothing else is asked for, the handler prints the
    "no valid command" error and leaves the file as it was, also when a
    task with the id 0 is in the store. *)
Theorem zero_id_is_no_command now args fs tasks_manager :
  Tasks_init fs = Some tasks_manager →
  args_add args = None → args_list args = false →
  list_truthy (args_query args) = false → args_report args = false →
  args_done args = None ∨ args_done args = Some 0 →
  args_delete args = None ∨ args_delete args = Some 0 →
  handle_command now args fs = Some (fs, [ErrorNoCommand]).
Proof.
  intros Hinit Hadd Hlist Hquery Hreport Hdone Hdelete. unfold handle_command.
  rewrite Hinit. cbn [mbind option_bind]. rewrite Hadd, Hlist, Hquery, Hreport.
  by destruct Hdone as [-> | ->], Hdelete as [-> | ->].
Qed.
End OtherCommands.

(** ** Sessions: what a task keeps over the lifetime of a store *)

(** A later state [t'] of the task [t]: the fields given at creation are
    the same, a deleted task stays deleted and a completed task stays
    completed (the time of completion may be a later one). *)
Definition task_evolves (t t' : Task) : Prop :=
  unique_id t' = unique_id t ∧ name t' = name t ∧ priority t' = priority t ∧
  due_date t' = due_date t ∧ created t' = created t ∧
  (deleted t = true → deleted t' = true) ∧
  (is_Some (completed t) → is_Some (completed t')).

(** A later state of the store: the tasks it had, each in a later state
    and at its position, followed by the tasks created since. *)
Definition store_evolves (ts ts' : list Task) : Prop :=
  ∃ old new, ts' = old ++ new ∧ Forall2 task_evolves ts old.

Lemma task_evolves_refl t : task_evolves t t.
Proof. by repeat split. Qed.

Lemma task_evolves_trans t1 t2 t3 :
  task_evolves t1 t2 → task_evolves t2 t3 → task_evolves t1 t3.
Proof.
  intros (?&?&?&?&?&?&?) (?&?&?&?&?&?&?).
  repeat split; try congruence; auto.
Qed.

Lemma tasks_evolve_refl ts : Forall2 task_evolves ts ts.
Proof.
  apply Forall_Forall2_diag, Forall_forall. intros. apply task_evolves_refl.
Qed.

Lemma store_evolves_refl ts : store_evolves ts ts.
Proof. exists ts, []. split; [by rewrite app_nil_r|apply tasks_evolve_refl]. Qed.

Lemma store_evolves_trans ts1 ts2 ts3 :
  store_evolves ts1 ts2 → store_evolves ts2 ts3 → store_evolves ts1 ts3.
Proof.
  intros (old1 & new1 & -> & H1) (old2 & new2 & -> & H2).
  apply Forall2_app_inv_l in H2 as (k1 & k2 & Hk1 & Hk2 & ->).
  exists k1, (k2 ++ new2). split; [by rewrite app_assoc|].
  eapply Forall2_trans; [|exact H1|exact Hk1]. apply task_evolves_trans.
Qed.

Lemma mark_completed_evolves now t : task_evolves t (mark_completed now t).
Proof. repeat split; try done. Qed.

Lemma mark_deleted_evolves t : task_evolves t (mark_deleted t).
Proof. by repeat split. Qed.

Lemma well_dated_evolves ts old new :
  well_dated ts → Forall2 task_evolves ts old → well_dated new →
  well_dated (old ++ new).
Proof.
  intros Hts Hold Hnew t' d [Ht'|Ht']%elem_of_app Hd; [|by eapply Hnew].
  apply list_elem_of_lookup in Ht' as [i Hi].
  destruct (Forall2_lookup_r _ _ _ _ _ Hold Hi) as (t & Ht & Hev).
  destruct Hev as (_ & _ & _ & Hdue & _).
  apply (Hts t); [by eapply list_elem_of_lookup_2|]. by rewrite <-Hdue.
Qed.

Lemma well_dated_parsed_due now uid nm prio due :
  well_dated [Task_init now uid nm prio (parsed_due due).1].
Proof.
  intros t d ->%list_elem_of_singleton. cbn [due_date Task_init].
  unfold parsed_due. destruct due as [due|]; [|done].
  destruct (str_truthy due); [|done].
  destruct (strptime due) as [d'|] eqn:E; [|done].
  intros [= <-]. by eapply strptime_calendar_date.
Qed.

Lemma well_dated_nil : well_dated [].
Proof. intros t d Ht. by apply elem_of_nil in Ht. Qed.

Section SessionInvariants.
Context `{Pickler}.

(** A command keeps the tasks of the store, each possibly in a later
    state, and adds at most one task, whose due date is a calendar date. *)
Lemma step_evolves op fs ts :
  stored fs ts → is_hard_delete op = false →
  ∃ fs' out old new,
    step op fs = Some (fs', out) ∧ stored fs' (old ++ new) ∧
    Forall2 task_evolves ts old ∧ well_dated new.
Proof.
  intros Hst Hop. destruct op as [now nm due prio|uid|now uid|uid]; [|done|..].
  - cbn [step].
    destruct (negb (str_truthy nm) || isdigit nm) eqn:Hnm.
    + exists fs, [ErrorCreatingTask], ts, [].
      rewrite (handle_command_add_rejected _ _ _ _ nm Hst) by done.
      rewrite app_nil_r. auto using tasks_evolve_refl, well_dated_nil.
    + apply orb_false_iff in Hnm as [Hnm%negb_false_iff Hdigit].
      rewrite (handle_command_add _ _ _ _ nm Hst) by done.
      cbn [tasks tasks_append file_path].
      eexists _, _, ts, [_]. split; [done|].
      split; [apply stored_pickle_tasks|].
      split; [apply tasks_evolve_refl|]. apply well_dated_parsed_due.
  - cbn [step]. unfold handle_command. rewrite Hst. cbn.
    destruct (uid =? 0); cbn.
    { exists fs, [ErrorNoCommand], ts, []. rewrite app_nil_r.
      auto using tasks_evolve_refl, well_dated_nil. }
    unfold Tasks_done. cbn [tasks file_path].
    destruct (done_loop now uid ts) as [ts'|] eqn:E.
    + apply done_loop_Some in E as (l1 & t & l2 & -> & _ & _ & ->).
      eexists _, [CompletedTask uid], _, []. split; [done|].
      rewrite app_nil_r. split; [apply stored_pickle_tasks|].
      split; [|apply well_dated_nil].
      apply Forall2_app; [apply tasks_evolve_refl|].
      constructor; [apply mark_completed_evolves|apply tasks_evolve_refl].
    + exists fs, [ErrorNotFound uid], ts, []. rewrite app_nil_r.
      auto using tasks_evolve_refl, well_dated_nil.
  - cbn [step]. unfold handle_command. rewrite Hst. cbn.
    destruct (uid =? 0); cbn.
    { exists fs, [ErrorNoCommand], ts, []. rewrite app_nil_r.
      auto using tasks_evolve_refl, well_dated_nil. }
    unfold get_task_by_id. cbn [tasks file_path].
    destruct (get_task_by_id_from 0 ts uid) as [[i task]|] eqn:E.
    + apply get_task_by_id_from_lookup in E as (j & -> & Hj).
      eexists _, [DeletedTask uid], _, []. split; [done|].
      rewrite app_nil_r. split; [apply stored_pickle_tasks|].
      split; [|apply well_dated_nil]. cbn [Nat.add].
      rewrite <-(list_insert_id ts j task Hj) at 1.
      apply Forall2_insert; [apply tasks_evolve_refl|apply mark_deleted_evolves].
    + exists fs, [ErrorNotFound uid], ts, []. rewrite app_nil_r.
      auto using tasks_evolve_refl, well_dated_nil.
Qed.

(** X9.  Over a session of add, done and soft-delete commands every task
    of the store stays in the store at its position and keeps its id,
    name, priority, due date and time of creation; once deleted it stays
    deleted, once completed it stays completed; new tasks come after the
    old ones. *)
Theorem session_keeps_tasks (ops : list operation) (fs : files) (ts : list Task) :
  Tasks_init fs = Some {| file_path := ".todo.pickle"; tasks := ts |} →
  Forall (λ op, is_hard_delete op = false) ops →
  ∃ fs' out ts',
    run ops fs = Some (fs', out) ∧
    Tasks_init fs' = Some {| file_path := ".todo.pickle"; tasks := ts' |} ∧
    store_evolves ts ts' ∧
    ∀ i t, ts !! i = Some t → ∃ t', ts' !! i = Some t' ∧ task_evolves t t'.
Proof.
  intros Hst Hops.
  assert (∃ fs' out ts', run ops fs = Some (fs', out) ∧ stored fs' ts' ∧
                         store_evolves ts ts') as (fs' & out & ts' & Hrun & Hst' & Hev).
  { revert fs ts Hst. induction Hops as [|op ops Hop Hops IH]; intros fs ts Hst.
    - exists fs, [], ts. split; [done|]. split; [done|]. apply store_evolves_refl.
    - destruct (step_evolves op fs ts Hst Hop)
        as (fs1 & out1 & old & new & Hstep & Hst1 & Hold & _).
      destruct (IH fs1 _ Hst1) as (fs2 & out2 & ts2 & Hrun & Hst2 & Hev).
      exists fs2, (out1 ++ out2), ts2. cbn [run]. rewrite Hstep. cbn.
      rewrite Hrun. cbn. split; [done|]. split; [done|].
      eapply store_evolves_trans; [|exact Hev]. by exists old, new. }
  exists fs', out, ts'. split; [done|]. split; [done|]. split; [done|].
  destruct Hev as (old & new & -> & Hold). intros i t Hi.
  destruct (Forall2_lookup_l _ _ _ _ _ Hold Hi) as (t' & Ht' & Hev).
  exists t'. split; [|done]. by apply lookup_app_l_Some.
Qed.

(** X10.  Every session, hard deletes included, runs to its end from a
    new store, and every due date in the store it leaves is a calendar
    date: midnight of a day from 0001-01-01 to 9999-12-31, so at least
    [datetime.min] and strictly less than [datetime.max]. *)
Theorem session_due_dates (ops : list operation) :
  ∃ fs out ts,
    run ops ∅ = Some (fs, out) ∧
    Tasks_init fs = Some {| file_path := ".todo.pickle"; tasks := ts |} ∧
    well_dated ts ∧
    ∀ t d, t ∈ ts → due_date t = Some d →
      datetime_min ≤ d < datetime_max ∧ d `mod` us_per_day = 0.
Proof.
  assert (∀ fs ts, stored fs ts → well_dated ts →
            ∃ fs' out ts', run ops fs = Some (fs', out) ∧ stored fs' ts' ∧
                           well_dated ts') as Hrun.
  { induction ops as [|op ops IH]; intros fs ts Hst Hwd.
    - by exists fs, [], ts.
    - destruct (is_hard_delete op) eqn:Hop.
      + destruct op as [|uid| |]; try done. cbn [run step].
        unfold stored in Hst. rewrite Hst. cbn [mbind option_bind].
        unfold Tasks_delete. cbn [snd file_path tasks].
        destruct (IH (pickle_tasks
                        {| file_path := ".todo.pickle";
                           tasks := filter (λ t, unique_id t ≠ uid) ts |} fs)
                     (filter (λ t, unique_id t ≠ uid) ts))
          as (fs2 & out2 & ts2 & Hrun & Hst2 & Hwd2).
        { apply stored_pickle_tasks. }
        { intros t d Ht. apply list_elem_of_filter in Ht as [_ Ht]. by apply Hwd. }
        rewrite Hrun. cbn [mbind option_bind app]. by exists fs2, out2, ts2.
      + destruct (step_evolves op fs ts Hst Hop)
          as (fs1 & out1 & old & new & Hstep & Hst1 & Hold & Hnew).
        destruct (IH fs1 _ Hst1) as (fs2 & out2 & ts2 & Hrun & Hst2 & Hwd2).
        { exact (well_dated_evolves ts old new Hwd Hold Hnew). }
        cbn [run]. rewrite Hstep. cbn. rewrite Hrun. cbn.
        by exists fs2, (out1 ++ out2), ts2. }
  destruct (Hrun ∅ [] Tasks_init_empty well_dated_nil)
    as (fs & out & ts & Hr & Hst & Hwd).
  exists fs, out, ts. split; [done|]. split; [done|]. split; [done|].
  intros t d Ht Hd. pose proof (Hwd t d Ht Hd) as Hcal.
  split; [by apply calendar_date_bounds|].
  destruct Hcal as (y & m & dd & Hdate). unfold datetime_of_date in Hdate.
  destruct (_ && _) in Hdate; [|done]. injection Hdate as <-.
  apply Z.mod_mul. unfold us_per_day. lia.
Qed.
End SessionInvariants.

(** ** Ties in Tasks.list and Tasks.report *)

(** X11.  Sorting is stable in both directions: the tasks that share a
    sort key (same due date, or none, and same priority) are listed by
    [Tasks.list], and reported by [Tasks.report], in the order they have
    in the store. *)
Theorem list_and_report_keep_store_order_of_ties (self : Tasks) (k : datetime * Z) :
  filter (λ t, list_key t = k) (Tasks_list self)
  = filter (λ t, list_key t = k) (filter active (tasks self)) ∧
  filter (λ t, report_key t = k) (Tasks_report self)
  = filter (λ t, report_key t = k) (tasks self).
Proof. split; apply sorted_stable, tuple_lt_irrefl. Qed.

(** ** Keywords of Tasks.query *)

Lemma char_lower_idemp c : char_lower (char_lower c) = char_lower c.
Proof. by destruct c as [[] [] [] [] [] [] [] []]. Qed.

Lemma chars_lower s : chars (lower s) = map char_lower (chars s).
Proof. unfold lower, chars. apply list_ascii_of_string_of_list_ascii. Qed.

Lemma lower_idemp s : lower (lower s) = lower s.
Proof.
  unfold lower at 1. rewrite chars_lower, map_map. unfold lower. f_equal.
  apply map_ext. intros c. apply char_lower_idemp.
Qed.

Lemma matches_lower keywords t : matches (lower <$> keywords) t ↔ matches keywords t.
Proof.
  unfold matches. rewrite !existsb_exists. split.
  - intros (kw & Hin & Hkw). rewrite <-list_elem_of_In in Hin.
    apply list_elem_of_fmap in Hin as (kw' & -> & Hin).
    exists kw'. rewrite <-list_elem_of_In. by rewrite lower_idemp in Hkw.
  - intros (kw & Hin & Hkw). rewrite <-list_elem_of_In in Hin.
    exists (lower kw). rewrite <-list_elem_of_In, lower_idemp.
    split; [by apply list_elem_of_fmap_2|done].
Qed.

Lemma str_in_empty s : str_in "" s = true.
Proof. unfold str_in. by destruct (chars s). Qed.

(** X12.  [Tasks.query] with no keyword returns nothing; with the empty
    string among the keywords it returns every incomplete task; and its
    result does not depend on the case of the keywords. *)
Theorem Tasks_query_keywords (self : Tasks) (keywords : list str) :
  Tasks_query self [] = [] ∧
  ("" ∈ keywords →
   Tasks_query self keywords = filter (λ t, completed t = None) (tasks self)) ∧
  Tasks_query self (lower <$> keywords) = Tasks_query self keywords.
Proof.
  unfold Tasks_query. split; [|split].
  - induction (filter _ (tasks self)) as [|t l IH]; [done|].
    by rewrite filter_cons_False.
  - intros Hin. apply filter_all. intros t _.
    unfold matches. apply existsb_exists. exists "".
    rewrite <-list_elem_of_In. split; [done|]. apply str_in_empty.
  - apply list_filter_iff. intros t. apply matches_lower.
Qed.

(** ** print_tasks

    The table [print_tasks] writes, one string per [print] call.  The two
    [strftime] renderings (of a due date with [%m/%d/%Y], of a time stamp
    with [%a %b %d %H:%M:%S %Z %Y]) are parameters; [clock i] is what
    [datetime.now()] returns while row [i] is printed. *)

Definition spaces (n : nat) : str := string_of_list_ascii (replicate n " "%char).

(** ["-" * n] *)
Definition dashes (n : nat) : str := string_of_list_ascii (replicate n "-"%char).

(** The format [{s:<w}]: [s], then spaces up to the width [w]. *)
Definition ljust (w : nat) (s : str) : str := s +:+ spaces (w - String.length s).

(** [str(n)] for an integer. *)
Definition str_of_int (n : Z) : str := pretty n.

Section PrintTasks.
Variable strftime_date : datetime → str.
Variable strftime_stamp : datetime → str.

Definition header (show_created show_completed show_deleted : bool) : str :=
  let header :=
    ljust 4 "ID" +:+ ljust 6 "Age" +:+ ljust 12 "Due Date"
    +:+ ljust 10 "Priority" +:+ ljust 20 "Task" in
  let header := if show_created then header +:+ ljust 30 "Created" else header in
  let header := if show_completed then header +:+ ljust 30 "Completed" else header in
  let header := if show_deleted then header +:+ ljust 10 "Deleted" else header in
  header.

Definition age (now : datetime) (task : Task) : str :=
  let age_days := (now - created task) / us_per_day in
  if 0 <? age_days then str_of_int age_days +:+ "d" else "0d".

Definition row (now : datetime) (task : Task)
    (show_created show_completed show_deleted : bool) : str :=
  let due_date :=
    match due_date task with Some d => strftime_date d | None => "-" end in
  let row :=
    ljust 4 (str_of_int (unique_id task)) +:+ ljust 6 (age now task)
    +:+ ljust 12 due_date +:+ ljust 10 (str_of_int (priority task))
    +:+ ljust 20 (name task) in
  let row :=
    if show_created then row +:+ ljust 30 (strftime_stamp (created task))
    else row in
  let row :=
    if show_completed then
      row +:+ ljust 30 (match completed task with
                        | Some c => strftime_stamp c
                        | None => "-"
                        end)
    else row in
  let row :=
    if show_deleted then row +:+ ljust 10 (if deleted task then "Yes" else "No")
    else row in
  row.

Definition print_tasks (clock : nat → datetime) (tasks : list Task)
    (show_created show_completed show_deleted : bool) : list str :=
  let header := header show_created show_completed show_deleted in
  header :: dashes (String.length header)
  :: imap (λ i task, row (clock i) task show_created show_completed show_deleted)
       tasks.
End PrintTasks.

Lemma length_string_app (s1 s2 : str) :
  String.length (s1 +:+ s2) = (String.length s1 + String.length s2)%nat.
Proof. induction s1 as [|c s1 IH]; simpl; [done|]. by rewrite IH. Qed.

Lemma length_replicate_string n c :
  String.length (string_of_list_ascii (replicate n c)) = n.
Proof. induction n as [|n IH]; simpl; [done|]. by rewrite IH. Qed.

Lemma length_ljust w s : String.length (ljust w s) = (w `max` String.length s)%nat.
Proof.
  unfold ljust, spaces. rewrite length_string_app, length_replicate_string. lia.
Qed.

Section PrintTasksFacts.
Variable strftime_date : datetime → str.
Variable strftime_stamp : datetime → str.

Lemma length_header sc sp sd :
  String.length (header sc sp sd)
  = (52 + (if sc then 30 else 0) + (if sp then 30 else 0)
     + (if sd then 10 else 0))%nat.
Proof. by destruct sc, sp, sd. Qed.

Lemma length_row now task sc sp sd :
  (String.length (header sc sp sd)
   ≤ String.length (row strftime_date strftime_stamp now task sc sp sd))%nat.
Proof.
  rewrite length_header. unfold row.
  destruct sc, sp, sd; rewrite ?length_string_app, ?length_ljust; lia.
Qed.

(** X13.  [print_tasks] prints the header, a line of dashes as long as
    the header, and one row per task in the order given.  The header is
    52 characters wide, plus 30 for each of the created and completed
    columns and 10 for the deleted column.  A row is never shorter than
    the header: a field wider than its column is printed in full and
    moves the rest of the row to the right. *)
Theorem print_tasks_shape clock (tasks : list Task) sc sp sd :
  let lines := print_tasks strftime_date strftime_stamp clock tasks sc sp sd in
  length lines = (2 + length tasks)%nat ∧
  lines !! 0%nat = Some (header sc sp sd) ∧
  String.length (header sc sp sd)
  = (52 + (if sc then 30 else 0) + (if sp then 30 else 0)
     + (if sd then 10 else 0))%nat ∧
  lines !! 1%nat = Some (dashes (String.length (header sc sp sd))) ∧
  String.length (dashes (String.length (header sc sp sd)))
  = String.length (header sc sp sd) ∧
  ∀ i task, tasks !! i = Some task →
    lines !! (2 + i)%nat
    = Some (row strftime_date strftime_stamp (clock i) task sc sp sd) ∧
    (String.length (header sc sp sd)
     ≤ String.length (row strftime_date strftime_stamp (clock i) task sc sp sd))%nat.
Proof.
  cbn zeta. unfold print_tasks. cbn [length lookup list_lookup].
  split; [by rewrite length_imap|]. split; [done|].
  split; [apply length_header|]. split; [done|].
  split; [apply length_replicate_string|].
  intros i task Hi. split; [|apply length_row].
  change (2 + i)%nat with (S (S i)). cbn [lookup list_lookup].
  etrans; [apply list_lookup_imap|]. by rewrite Hi.
Qed.

(** X14.  The age column shows whole days between the creation of the
    task and the time of printing: ["0d"] when less than a day has
    passed, also when the task was created after the time of printing,
    and the number of days followed by ["d"] from one day on. *)
Theorem age_spec (now : datetime) (task : Task) :
  (now - created task < us_per_day → age now task = "0d") ∧
  (us_per_day ≤ now - created task →
   ∃ n, 1 ≤ n ∧ n * us_per_day ≤ now - created task < (n + 1) * us_per_day ∧
        age now task = str_of_int n +:+ "d").
Proof.
  unfold age. cbn zeta. unfold us_per_day. split.
  - intros Hlt.
    assert ((now - created task) / 86400000000 ≤ 0) as Hle.
    { div_facts (now - created task) 86400000000. lia. }
    by apply Z.ltb_ge in Hle as ->.
  - intros Hge. exists ((now - created task) / 86400000000).
    div_facts (now - created task) 86400000000.
    assert (0 < (now - created task) / 86400000000) as Hpos by lia.
    split; [lia|]. split; [lia|]. by apply Z.ltb_lt in Hpos as ->.
Qed.
End PrintTasksFacts.

(** ** The properties above on the example store *)

(** The file system that holds the example store, with the in-memory
    pickler. *)
Definition example_files : gmap string pyval :=
  pickle_tasks (H := memory_pickler) example_store ∅.

Lemma Tasks_init_example :
  Tasks_init (H := memory_pickler) example_files = Some example_store.
Proof. by apply Tasks_init_pickle_tasks. Qed.

Lemma add_rejects_empty_and_digits_witness :
  isdigit "123" = true ∧
  handle_command (H := memory_pickler) example_now
    (add_args "123" (Some "02/01/2025") (Some 2)) example_files
  = Some (example_files, [ErrorCreatingTask]).
Proof.
  split; [reflexivity|].
  exact (add_rejects_empty_and_digits (H := memory_pickler) example_now
           (add_args "123" (Some "02/01/2025") (Some 2)) example_files
           example_store "123" Tasks_init_example eq_refl (or_intror eq_refl)).
Defined.

Lemma list_and_query_commands_witness :
  handle_command (H := memory_pickler) example_now
    {| args_add := None; args_due := None; args_priority := None;
       args_list := true; args_query := Some ["rent"]; args_done := Some 1;
       args_delete := None; args_report := true |} example_files
  = Some (example_files, [PrintTasks (Tasks_list example_store) false false false]).
Proof.
  exact (proj1 (list_and_query_commands (H := memory_pickler) example_now
                  {| args_add := None; args_due := None; args_priority := None;
                     args_list := true; args_query := Some ["rent"];
                     args_done := Some 1; args_delete := None;
                     args_report := true |}
                  example_files example_store Tasks_init_example eq_refl)
           eq_refl).
Defined.

Lemma done_command_witness :
  ∃ fs' out tasks_manager',
    handle_command (H := memory_pickler) example_now (done_args 2) example_files
    = Some (fs', out) ∧
    Tasks_init fs' = Some tasks_manager' ∧
    length (tasks tasks_manager') = length (tasks example_store).
Proof.
  destruct (done_command (H := memory_pickler) example_now (done_args 2)
              example_files example_store 2 Tasks_init_example
              eq_refl eq_refl eq_refl eq_refl ltac:(discriminate))
    as (fs' & out & tasks_manager' & Hrun & Hinit & Hlen & _).
  by exists fs', out, tasks_manager'.
Defined.

Lemma delete_command_witness :
  match get_task_by_id example_store 2 with
  | Some (i, task) =>
      ∃ fs', handle_command (H := memory_pickler) example_now (delete_args 2)
               example_files = Some (fs', [DeletedTask 2])
  | None => False
  end.
Proof.
  pose proof (delete_command (H := memory_pickler) example_now (delete_args 2)
                example_files example_store 2 Tasks_init_example
                eq_refl eq_refl eq_refl eq_refl eq_refl ltac:(discriminate))
    as Hd.
  destruct (get_task_by_id example_store 2) as [[i task]|] eqn:E.
  - destruct Hd as (fs' & tasks_manager' & Hrun & _). by exists fs'.
  - discriminate E.
Defined.

Lemma zero_id_is_no_command_witness :
  handle_command (H := memory_pickler) example_now (done_args 0) example_files
  = Some (example_files, [ErrorNoCommand]).
Proof.
  exact (zero_id_is_no_command (H := memory_pickler) example_now (done_args 0)
           example_files example_store Tasks_init_example
           eq_refl eq_refl eq_refl eq_refl (or_intror eq_refl) (or_introl eq_refl)).
Defined.

Lemma session_keeps_tasks_witness :
  Forall (λ op, is_hard_delete op = false)
    [ MarkCompleted example_now 1; Add example_now "water plants" None None;
      MarkDeleted 2 ] ∧
  ∃ fs' out ts',
    run (H := memory_pickler)
      [ MarkCompleted example_now 1; Add example_now "water plants" None None;
        MarkDeleted 2 ] example_files = Some (fs', out) ∧
    Tasks_init fs' = Some {| file_path := ".todo.pickle"; tasks := ts' |} ∧
    store_evolves example_tasks ts'.
Proof.
  assert (Forall (λ op, is_hard_delete op = false)
            [ MarkCompleted example_now 1;
              Add example_now "water plants" None None; MarkDeleted 2 ]) as Hops
    by (repeat constructor).
  split; [exact Hops|].
  destruct (session_keeps_tasks (H := memory_pickler) _ example_files
              example_tasks Tasks_init_example Hops)
    as (fs' & out & ts' & Hrun & Hinit & Hev & _).
  by exists fs', out, ts'.
Defined.

(** ** A task just added *)

Lemma starts_with_refl s : starts_with s s = true.
Proof. induction s as [|c s IH]; simpl; [done|]. by rewrite Ascii.eqb_refl. Qed.

Lemma str_in_refl s : str_in s s = true.
Proof.
  unfold str_in. destruct (chars s) as [|c l] eqn:E; [done|].
  cbn [find_in]. by rewrite starts_with_refl.
Qed.

Lemma parsed_due_valid due d :
  strptime due = Some d → parsed_due (Some due) = (Some d, []).
Proof.
  intros Hd. unfold parsed_due. rewrite Hd.
  destruct due; [discriminate Hd|done].
Qed.

(** X15.  An add command with a valid name creates an incomplete task
    that is not deleted, stamped with the time of the call, with the
    given name, the priority given or 1, and, when [--due] parses, that
    due date and no warning.  The task is at once part of what
    [Tasks.list] and [Tasks.report] return, and [Tasks.query] finds it by
    its name. *)
Theorem added_task_is_listed `{Pickler} now args fs tasks_manager nm :
  Tasks_init fs = Some tasks_manager →
  args_add args = Some nm → str_truthy nm = true → isdigit nm = false →
  ∃ fs' out tasks_manager' task,
    handle_command now args fs = Some (fs', out) ∧
    Tasks_init fs' = Some tasks_manager' ∧
    tasks tasks_manager' = tasks tasks_manager ++ [task] ∧
    completed task = None ∧ deleted task = false ∧ created task = now ∧
    name task = nm ∧ priority task = int_or (args_priority args) 1 ∧
    (∀ due d, args_due args = Some due → strptime due = Some d →
       due_date task = Some d ∧ out = [CreatedTask (unique_id task)]) ∧
    task ∈ Tasks_list tasks_manager' ∧
    task ∈ Tasks_report tasks_manager' ∧
    task ∈ Tasks_query tasks_manager' [nm].
Proof.
  intros Hinit Hadd Hnm Hdigit.
  eexists _, _, (tasks_append tasks_manager _),
    (added_task now args nm (length (tasks tasks_manager))).
  split; [by apply handle_command_add|].
  split.
  { apply Tasks_init_pickle_tasks. cbn [tasks_append file_path].
    by eapply Tasks_init_file_path. }
  cbn [tasks_append tasks].
  assert (added_task now args nm (length (tasks tasks_manager))
          ∈ tasks tasks_manager
              ++ [added_task now args nm (length (tasks tasks_manager))])
    as Hin by set_solver.
  repeat (split; [done|]). split; [|split; [|split]].
  - intros due d Hdue Hd. unfold added_task. cbn [due_date Task_init unique_id].
    by rewrite Hdue, (parsed_due_valid due d Hd).
  - by apply Tasks_list_elem_of.
  - unfold Tasks_report. by rewrite sorted_perm.
  - apply Tasks_query_elem_of. split; [done|]. split; [done|].
    unfold matches. cbn [existsb added_task name Task_init].
    by rewrite str_in_refl.
Qed.

Lemma added_task_is_listed_witness :
  ∃ fs' out tasks_manager' task,
    handle_command (H := memory_pickler) example_now
      (add_args "water plants" (Some "2/1/2025") None) example_files
    = Some (fs', out) ∧
    Tasks_init fs' = Some tasks_manager' ∧
    tasks tasks_manager' = example_tasks ++ [task] ∧
    unique_id task = 6 ∧
    task ∈ Tasks_list tasks_manager'.
Proof.
  destruct (added_task_is_listed (H := memory_pickler) example_now
              (add_args "water plants" (Some "2/1/2025") None) example_files
              example_store "water plants" Tasks_init_example
              eq_refl eq_refl eq_refl)
    as (fs' & out & tasks_manager' & task & Hrun & Hinit & Htasks & _ & _ & _
        & _ & _ & _ & Hlist & _).
  exists fs', out, tasks_manager', task. repeat split; try done.
  rewrite (handle_command_add _ _ _ _ "water plants" Tasks_init_example)
    in Hrun by reflexivity.
  injection Hrun as Hfs Hout. rewrite <-Hfs in Hinit.
  rewrite Tasks_init_pickle_tasks in Hinit by done.
  injection Hinit as <-. cbn [tasks tasks_append] in Htasks.
  apply app_inv_head in Htasks. by injection Htasks as <-.
Defined.
